(** * The report-diff calibration engine of the SNES controller mapper

    A shallow embedding of [tools/snes-mapper.py] and
    [tools/snes-mapper-standalone.py]: baseline estimation
    ([get_baseline]), the byte-level change detector (the comprehension
    inside [wait_for_button] / [wait_button]), the press / release loops
    and the twelve-button session ([map_controller]).

    The two scripts are the same engine; where they differ (what
    [read_report] catches, the keys of a change, the default timeout,
    the half-second pause before sampling) the definitions branch on a
    [script] tag. *)

From Stdlib Require Import ZArith NArith Sorted.
From Stdlib.Strings Require Import Byte Ascii String HexString.
From stdpp Require Import base decidable option numbers list strings gmap.

Local Open Scope Z_scope.

(** ** Data model *)

Inductive script := Mapper | Standalone.

#[global] Instance script_eq_decision : EqDecision script.
Proof. solve_decision. Defined.

(** A HID report is a Python [bytes] object. *)
Abbreviation report := (list byte).

#[global] Instance byte_eq_decision : EqDecision byte := Byte.byte_eq_dec.

(** One entry of a [changes] list.  [snes-mapper.py] writes the keys
    ['byte'], ['baseline'], ['pressed'] and ['diff']; the stand-alone
    script writes ['byte'], ['from'] and ['to'] and has no ['diff']. *)
Record change := Change {
  ch_byte : nat;
  ch_from : byte;
  ch_to : byte;
  ch_diff : option N
}.

(** What [wait_for_button] returns on success: the observed report and
    its changes against the baseline. *)
Record capture := Capture {
  cap_report : report;
  cap_changes : list change
}.

(** ** The change detector *)

(** Python's [enumerate(xs, start)]. *)
Fixpoint enumerate_from {A : Type} (start : nat) (xs : list A) : list (nat * A) :=
  match xs with
  | [] => []
  | x :: xs' => (start, x) :: enumerate_from (S start) xs'
  end.

Definition enumerate {A : Type} (xs : list A) : list (nat * A) :=
  enumerate_from 0 xs.

(** The dictionary built for position [i] where the baseline has [a] and
    the report has [b]; ['diff'] is [b ^ a] on Python ints. *)
Definition mk_change (s : script) (i : nat) (a b : byte) : change :=
  Change i a b
    (match s with
     | Mapper => Some (N.lxor (Byte.to_N b) (Byte.to_N a))
     | Standalone => None
     end).

Definition keep_change (s : script) (e : nat * (byte * byte)) : option change :=
  let '(i, (a, b)) := e in
  if decide (a ≠ b) then Some (mk_change s i a b) else None.

(** [[{...} for i, (a, b) in enumerate(zip(baseline, report)) if a != b]];
    [zip] stops at the shorter of its arguments. *)
Definition detect_changes (s : script) (baseline r : report) : list change :=
  omap (keep_change s) (enumerate (zip baseline r)).

(** Replaying a change list over a copy of a report: each change writes
    its [ch_to] at its [ch_byte].  The scripts never replay a change
    list; this is the reading of "apply each ByteDiff's toValue at its
    byteIndex" used to state the round trip. *)
Definition replay_changes (cs : list change) (b : report) : report :=
  foldl (λ acc c, <[ch_byte c := ch_to c]> acc) b cs.


(** ** The session's result *)

(** The [mapping] dictionary of [map_controller].  The scripts store the
    baseline and each report as a hex string; the bytes are kept here.
    [m_buttons] is the ['buttons'] dictionary, keyed by the button's
    key name. *)
Record mapping := Mapping {
  m_baseline : report;
  m_report_size : nat;
  m_buttons : gmap string capture
}.

(** ** The environment

    The scripts talk to the outside through [dev.read], [time.time],
    [time.sleep] and the configuration file they write.  The
    environment is an oracle: the answers that the next calls will get,
    in order.  When an answer is asked for and none is left the
    computation has not finished within the given oracle ([Blocked]). *)

(** What one call of [dev.read] does. *)
Inductive usb_read :=
| UsbData (d : report)  (* returns an array of bytes *)
| UsbTimeout            (* raises usb.core.USBTimeoutError *)
| UsbError              (* raises another subclass of Exception *)
| UsbSigInt.            (* Ctrl+C during the call: KeyboardInterrupt is
                           raised inside read_report's try block *)

#[global] Instance usb_read_eq_decision : EqDecision usb_read.
Proof. solve_decision. Defined.

(** What one call of [time.sleep] does. *)
Inductive sleep_ev :=
| Slept                 (* returns *)
| SleepSigInt.          (* Ctrl+C during the sleep: KeyboardInterrupt *)

(** [clock] holds the readings of [time.time], counted in whole
    milliseconds (Python has floating-point seconds; only the
    comparison with the timeout is used); [saved] the configuration
    files written so far. *)
Record world := World {
  clock : list Z;
  usb : list usb_read;
  sleeps : list sleep_ev;
  saved : list mapping
}.

Inductive exn :=
| KeyboardInterrupt
| SystemExit (code : Z)
| ValueError.

Inductive result (A : Type) :=
| Ret (a : A) (w : world)
| Raise (e : exn) (w : world)
| Blocked.
Arguments Ret {A} a w.
Arguments Raise {A} e w.
Arguments Blocked {A}.

Definition M (A : Type) : Type := world → result A.

#[global] Instance M_ret : MRet M := λ A a w, Ret a w.

#[global] Instance M_bind : MBind M := λ A B k m w,
  match m w with
  | Ret a w' => k a w'
  | Raise e w' => Raise e w'
  | Blocked => Blocked
  end.

Definition raise {A : Type} (e : exn) : M A := λ w, Raise e w.

(** [try: body / except KeyboardInterrupt: handler]. *)
Definition try_except_KeyboardInterrupt {A : Type} (body handler : M A) : M A :=
  λ w, match body w with
       | Raise KeyboardInterrupt w' => handler w'
       | r => r
       end.

Definition sys_exit {A : Type} (code : Z) : M A := raise (SystemExit code).

Definition time_time : M Z := λ w,
  match clock w with
  | [] => Blocked
  | t :: ck => Ret t (World ck (usb w) (sleeps w) (saved w))
  end.

Definition dev_read : M usb_read := λ w,
  match usb w with
  | [] => Blocked
  | u :: us => Ret u (World (clock w) us (sleeps w) (saved w))
  end.

(** [time.sleep(ms / 1000)]. *)
Definition time_sleep (ms : Z) : M unit := λ w,
  match sleeps w with
  | [] => Blocked
  | Slept :: sl => Ret tt (World (clock w) (usb w) sl (saved w))
  | SleepSigInt :: sl =>
      Raise KeyboardInterrupt (World (clock w) (usb w) sl (saved w))
  end.

(** Writing the configuration file. *)
Definition write_config (m : mapping) : M unit := λ w,
  Ret tt (World (clock w) (usb w) (sleeps w) (saved w ++ [m])).

Definition world_size (w : world) : nat :=
  (length (clock w) + length (usb w) + length (sleeps w))%nat.

(** A Python [while] loop.  [body] is one iteration: [Some a] leaves the
    loop with [a], [None] goes round again.  Every iteration of the
    loops below takes at least one answer from the oracle, so
    [S (world_size w)] rounds are never used up before the oracle is
    (lemma [loop_unfold]). *)
Fixpoint loop_rounds {A : Type} (body : M (option A)) (rounds : nat) : M A :=
  match rounds with
  | O => λ _, Blocked
  | S n =>
      r ← body;
      match r with
      | Some a => mret a
      | None => loop_rounds body n
      end
  end.

Definition loop {A : Type} (body : M (option A)) : M A :=
  λ w, loop_rounds body (S (world_size w)) w.

(** ** Python built-ins used by [get_baseline] *)

(** [reports.count(v)]. *)
Fixpoint count (v : report) (reports : list report) : nat :=
  match reports with
  | [] => O
  | x :: reports' => ((if decide (x = v) then 1 else 0) + count v reports')%nat
  end.

(** [max(xs, key=key)]: the running maximum is replaced only by an item
    whose key is strictly greater, so of several maximal items the one
    met first is returned; on an empty iterable [max] raises
    [ValueError]. *)
Fixpoint max_from {A : Type} (key : A → nat) (best : A) (xs : list A) : A :=
  match xs with
  | [] => best
  | x :: xs' =>
      if (key best <? key x)%nat then max_from key x xs'
      else max_from key best xs'
  end.

Definition py_max {A : Type} (xs : list A) (key : A → nat) : option A :=
  match xs with
  | [] => None
  | x :: xs' => Some (max_from key x xs')
  end.

(** The order in which iterating [set(reports)] yields its elements is
    fixed by the hashes of the [bytes] objects, which CPython salts per
    process; the language only promises each distinct element once.
    The engine takes that order as a parameter [set_iter], and
    [set_iteration] is what the language promises of it. *)
Definition set_iteration (set_iter : list report → list report) : Prop :=
  ∀ reports, NoDup (set_iter reports) ∧ ∀ x, x ∈ set_iter reports ↔ x ∈ reports.

(** Two iteration orders: first occurrences in sample order, and the
    same reversed. *)
Definition first_occurrences (reports : list report) : list report :=
  reverse (remove_dups (reverse reports)).

Definition last_to_first (reports : list report) : list report :=
  remove_dups (reverse reports).

(** The selection step of [get_baseline]:
    [max(set(reports), key=reports.count)]. *)
Definition most_common (set_iter : list report → list report)
    (reports : list report) : option report :=
  py_max (set_iter reports) (λ r, count r reports).

(** "First-seen value wins": the most frequent value, ties going to the
    one that occurs first in the sample sequence.  This is the spec's
    tie-break, written out to be compared with [most_common]. *)
Definition first_seen_mode (reports : list report) : option report :=
  py_max reports (λ r, count r reports).

(** ** The engine *)

Section Engine.
Variable s : script.
Variable set_iter : list report → list report.

(** [read_report]: [snes-mapper.py] catches [USBTimeoutError] and
    [Exception], which lets [KeyboardInterrupt] through; the
    stand-alone script has a bare [except:], which catches it too. *)
Definition read_report (timeout : Z) : M (option report) :=
  u ← dev_read;
  match u with
  | UsbData d => mret (Some d)
  | UsbTimeout | UsbError => mret None
  | UsbSigInt =>
      match s with
      | Mapper => raise KeyboardInterrupt
      | Standalone => mret None
      end
  end.

(** [if report:] holds for a [bytes] object of positive length. *)
Definition truthy (r : option report) : bool :=
  match r with
  | Some (_ :: _) => true
  | _ => false
  end.

(** The [for _ in range(20)] loop of [get_baseline], with [n] rounds to
    go. *)
Fixpoint sample_reports (n : nat) (reports : list report) : M (list report) :=
  match n with
  | O => mret reports
  | S n' =>
      r ← read_report 50;
      let reports :=
        match r with
        | Some d => if truthy r then reports ++ [d] else reports
        | None => reports
        end in
      time_sleep 50;;
      sample_reports n' reports
  end.

Definition get_baseline : M report :=
  (match s with
   | Mapper => time_sleep 500
   | Standalone => mret tt
   end);;
  reports ← sample_reports 20 [];
  match reports with
  | [] => sys_exit 1
  | _ :: _ =>
      match most_common set_iter reports with
      | Some baseline => mret baseline
      | None => raise ValueError
      end
  end.

(** The release loop: [while True: report = read_report(...); if report
    == baseline: break; time.sleep(0.01)]. *)
Definition wait_for_release (baseline : report) : M unit :=
  loop (report ← read_report 50;
        if decide (report = Some baseline) then mret (Some tt)
        else time_sleep 10;; mret None).

(** One iteration of the press loop, guard included; [Some result] is
    what [wait_for_button] returns when the loop is left. *)
Definition press_iteration (baseline : report) (start_time timeout : Z)
    : M (option (option capture)) :=
  now ← time_time;
  if decide (now - start_time < timeout) then
    report ← read_report 50;
    match report with
    | Some r =>
        if truthy report && bool_decide (r ≠ baseline) then
          match detect_changes s baseline r with
          | [] => time_sleep 10;; mret None
          | c :: cs =>
              wait_for_release baseline;;
              mret (Some (Some (Capture r (c :: cs))))
          end
        else time_sleep 10;; mret None
    | None => time_sleep 10;; mret None
    end
  else mret (Some None).

(** [wait_for_button] ([wait_button] in the stand-alone script);
    [timeout] in milliseconds. *)
Definition wait_for_button (baseline : report) (timeout : Z)
    : M (option capture) :=
  start_time ← time_time;
  loop (press_iteration baseline start_time timeout).

Definition default_timeout : Z :=
  match s with
  | Mapper => 30000
  | Standalone => 15000
  end.

(** The key names of the twelve buttons, in the order of the list
    literal in [map_controller]. *)
Definition buttons_to_map : list string :=
  match s with
  | Mapper =>
      ["dpad_up"; "dpad_down"; "dpad_left"; "dpad_right";
       "btn_a"; "btn_b"; "btn_x"; "btn_y";
       "btn_start"; "btn_select"; "btn_l"; "btn_r"]
  | Standalone =>
      ["up"; "down"; "left"; "right"; "a"; "b"; "x"; "y";
       "start"; "select"; "l"; "r"]
  end.

Definition set_button (key_name : string) (c : capture) (m : mapping) : mapping :=
  Mapping (m_baseline m) (m_report_size m) (<[key_name := c]> (m_buttons m)).

(** The body of the [for] loop of [map_controller] for one button. *)
Definition map_button (baseline : report) (key_name : string) (m : mapping)
    : M mapping :=
  try_except_KeyboardInterrupt
    (result ← wait_for_button baseline default_timeout;
     match result with
     | Some c => mret (set_button key_name c m)
     | None => mret m
     end)
    (mret m).

Fixpoint map_buttons (baseline : report) (buttons : list string) (m : mapping)
    : M mapping :=
  match buttons with
  | [] => mret m
  | key_name :: rest =>
      m' ← map_button baseline key_name m;
      map_buttons baseline rest m'
  end.

Definition map_controller : M mapping :=
  baseline ← get_baseline;
  map_buttons baseline buttons_to_map (Mapping baseline (length baseline) ∅).

(** [main], from the point where the device is ready: map the buttons,
    then write the configuration. *)
Definition main : M unit :=
  m ← map_controller;
  write_config m.

End Engine.

(** ** Vocabulary of the statements *)

(** The answer [read_report] gives for a call of [dev.read] that it
    does not let escape. *)
Definition read_value (u : usb_read) : option report :=
  match u with
  | UsbData d => Some d
  | _ => None
  end.

(** A read yields data when [read_report] returns a report that passes
    [if report:]. *)
Definition yields_data (u : usb_read) : bool :=
  match u with
  | UsbData (_ :: _) => true
  | _ => false
  end.

(** The reports that [get_baseline] keeps from a run of reads. *)
Definition collect (us : list usb_read) : list report :=
  omap (λ u, match u with
             | UsbData (b :: d) => Some (b :: d)
             | _ => None
             end) us.

(** A read confirms a press when [wait_for_button] takes its report for
    one: [if report and report != baseline:] holds and [changes] is not
    empty. *)
Definition confirms (s : script) (baseline : report) (u : usb_read) : bool :=
  match u with
  | UsbData r =>
      truthy (Some r) && bool_decide (r ≠ baseline) &&
      match detect_changes s baseline r with
      | [] => false
      | _ :: _ => true
      end
  | _ => false
  end.

(** The invariant of a recorded capture: some change, changes in
    strictly ascending position, each giving the baseline's byte at its
    position as the old value. *)
Definition capture_ok (baseline : report) (c : capture) : Prop :=
  cap_changes c ≠ [] ∧
  StronglySorted lt (ch_byte <$> cap_changes c) ∧
  ∀ ch, ch ∈ cap_changes c → baseline !! ch_byte ch = Some (ch_from ch).

(** An oracle in which every read of a zero-length report has become a
    timeout, and a result carried over to such an oracle. *)
Definition empty_as_timeout_read (u : usb_read) : usb_read :=
  match u with
  | UsbData [] => UsbTimeout
  | _ => u
  end.

Definition empty_as_timeout (w : world) : world :=
  World (clock w) (empty_as_timeout_read <$> usb w) (sleeps w) (saved w).

Definition result_empty_as_timeout {A : Type} (r : result A) : result A :=
  match r with
  | Ret a w => Ret a (empty_as_timeout w)
  | Raise e w => Raise e (empty_as_timeout w)
  | Blocked => Blocked
  end.

(** What [read_report] returns for a zero-length report when it has
    become a timeout. *)
Definition empty_as_none (r : option report) : option report :=
  match r with
  | Some [] => None
  | _ => r
  end.

(** A computation that cannot tell a zero-length report from a
    timeout. *)
Definition blind_to_empty {A : Type} (m : M A) : Prop :=
  ∀ w, m (empty_as_timeout w) = result_empty_as_timeout (m w).

(** The calls of [time.sleep] made by [get_baseline]. *)
Definition pauses (s : script) : nat :=
  match s with
  | Mapper => 21%nat
  | Standalone => 20%nat
  end.

(** The oracle only shrinks: a computation that has returned has taken
    no answer back ([nongrowing]), or has taken at least one
    ([consuming]). *)
Definition nongrowing {A : Type} (m : M A) : Prop :=
  ∀ w a w', m w = Ret a w' → (world_size w' ≤ world_size w)%nat.

Definition consuming {A : Type} (m : M A) : Prop :=
  ∀ w a w', m w = Ret a w' → (world_size w' < world_size w)%nat.

(** ** Scenarios

    A two-byte controller that rests at [ff ff] and reports [7f ff]
    while one button is held. *)

Definition resting : report := [xff; xff].
Definition held : report := [x7f; xff].

(** [snes-mapper.py]: twenty resting reports for the baseline; the
    first button is pressed and released; each of the other eleven
    waits finds the clock past the timeout at its first look. *)
Definition one_press_session : world :=
  World ([0; 1] ++ mjoin (replicate 11 [0; 30000]))
        (replicate 20 (UsbData resting) ++ [UsbData held; UsbData resting])
        (replicate 21 Slept)
        [].

(** The stand-alone script: the same, but Ctrl+C arrives during the
    first read of the first button's wait, before the press. *)
Definition interrupted_session : world :=
  World ([0; 1; 2] ++ mjoin (replicate 11 [0; 15000]))
        (replicate 20 (UsbData resting)
           ++ [UsbSigInt; UsbData held; UsbData resting])
        (replicate 21 Slept)
        [].

(** No controller answers: twenty timeouts. *)
Definition silent_session (s : script) : world :=
  World [] (replicate 20 UsbTimeout) (replicate (pauses s) Slept) [].

(** ** The end of the script, and more vocabulary *)

(** A computation that writes no file and raises no exception outside
    [E]. *)
Definition tame (E : exn → Prop) {A : Type} (m : M A) : Prop :=
  ∀ w, match m w with
       | Ret _ w' => saved w' = saved w
       | Raise e w' => saved w' = saved w ∧ E e
       | Blocked => True
       end.

(** The block at the end of each script that calls [main], here from
    the point where the device is ready: [KeyboardInterrupt] becomes
    [sys.exit(0)]; [snes-mapper.py] also catches [Exception], prints
    the error and ends normally; neither catches [SystemExit]. *)
Definition script_entry (s : script) (set_iter : list report → list report)
    : M unit :=
  λ w, match main s set_iter w with
       | Raise KeyboardInterrupt w' => Raise (SystemExit 0) w'
       | Raise ValueError w' =>
           match s with
           | Mapper => Ret tt w'
           | Standalone => Raise ValueError w'
           end
       | r => r
       end.

(** A change with its old and new value exchanged. *)
Definition swap_change (c : change) : change :=
  Change (ch_byte c) (ch_to c) (ch_from c) (ch_diff c).

(** An oracle in which every Ctrl+C during [dev.read] has become a
    timeout, and a result carried over to such an oracle. *)
Definition sigint_as_timeout_read (u : usb_read) : usb_read :=
  match u with
  | UsbSigInt => UsbTimeout
  | _ => u
  end.

Definition sigint_as_timeout (w : world) : world :=
  World (clock w) (sigint_as_timeout_read <$> usb w) (sleeps w) (saved w).

Definition result_sigint_as_timeout {A : Type} (r : result A) : result A :=
  match r with
  | Ret a w => Ret a (sigint_as_timeout w)
  | Raise e w => Raise e (sigint_as_timeout w)
  | Blocked => Blocked
  end.

(** A computation that cannot tell a Ctrl+C during a read from a
    timeout. *)
Definition deaf_to_read_sigint {A : Type} (m : M A) : Prop :=
  ∀ w, m (sigint_as_timeout w) = result_sigint_as_timeout (m w).

(** ** Finding and choosing the controller *)

(** The fields of a USB interface descriptor that the scripts look at. *)
Record interface := Interface {
  bInterfaceClass : Z;
  bInterfaceSubClass : Z;
  bInterfaceProtocol : Z
}.

(** A Python iteration that may fail part-way: the items it yields, and
    then either its normal end or an exception. *)
Inductive walk (A : Type) :=
| WEnd
| WRaise
| WItem (a : A) (rest : walk A).
Arguments WEnd {A}.
Arguments WRaise {A}.
Arguments WItem {A} a rest.

(** What [usb.util.get_string(dev, dev.iProduct)] does. *)
Inductive product_string :=
| ProductName (name : string)
| ProductNone
| ProductRaises.

(** A [usb.core.Device]: its ids, its product string, and what
    iterating over it ([for cfg in dev], [for intf in cfg]) yields. *)
Record device := Device {
  idVendor : Z;
  idProduct : Z;
  product : product_string;
  configurations : walk (walk interface)
}.

(** An entry of the [controllers] list. *)
Record controller := Controller {
  ctl_device : device;
  ctl_vendor_id : Z;
  ctl_product_id : Z;
  ctl_name : string
}.

(** [KNOWN_CONTROLLERS] ([KNOWN] in the stand-alone script). *)
Definition KNOWN_CONTROLLERS : list ((Z * Z) * string) :=
  [((0x0810, 0xe501), "Generic Chinese SNES");
   ((0x0079, 0x0011), "DragonRise Generic");
   ((0x0583, 0x2060), "iBuffalo SNES");
   ((0x2dc8, 0x9018), "8BitDo SN30");
   ((0x12bd, 0xd015), "Generic 2-pack SNES");
   ((0x1a34, 0x0802), "USB Gamepad");
   ((0x0810, 0x0001), "Generic USB Gamepad");
   ((0x0079, 0x0006), "DragonRise Gamepad")].

(** [d[key]] for a dictionary given by its items, [None] when
    [key not in d]. *)
Fixpoint dict_get {V : Type} (key : Z * Z) (d : list ((Z * Z) * V)) : option V :=
  match d with
  | [] => None
  | (k, v) :: d' => if decide (k = key) then Some v else dict_get key d'
  end.

Definition known_name (key : Z * Z) : option string :=
  dict_get key KNOWN_CONTROLLERS.

(** [usb.util.get_string(dev, dev.iProduct) or default], inside
    [try: ... except: name = fallback]. *)
Definition product_name (s : script) (dev : device) : string :=
  match product dev with
  | ProductName name =>
      if decide (name = "") then
        match s with
        | Mapper => "Unknown HID Device"
        | Standalone => "Unknown"
        end
      else name
  | ProductNone =>
      match s with
      | Mapper => "Unknown HID Device"
      | Standalone => "Unknown"
      end
  | ProductRaises =>
      match s with
      | Mapper => "Unknown HID Device"
      | Standalone => "Unknown HID"
      end
  end.

(** How the loop over the interfaces of one configuration ends. *)
Inductive scan :=
| Found (c : controller)
| NotFound
| ScanRaised.

(** [for intf in cfg]: the first HID interface that is not a boot
    keyboard or mouse is appended and the loop is left with [break]. *)
Fixpoint scan_interfaces (s : script) (dev : device) (intfs : walk interface)
    : scan :=
  match intfs with
  | WEnd => NotFound
  | WRaise => ScanRaised
  | WItem intf rest =>
      if decide (bInterfaceClass intf = 0x03) then
        if decide (bInterfaceSubClass intf = 1 ∧
                   bInterfaceProtocol intf ∈ [1; 2]) then
          scan_interfaces s dev rest
        else
          Found (Controller dev (idVendor dev) (idProduct dev)
                   (product_name s dev))
      else scan_interfaces s dev rest
  end.

(** [try: for cfg in dev: ... except: pass]: what has been appended
    when an exception ends the walk stays appended. *)
Fixpoint scan_configurations (s : script) (dev : device)
    (cfgs : walk (walk interface)) : list controller :=
  match cfgs with
  | WEnd | WRaise => []
  | WItem cfg rest =>
      match scan_interfaces s dev cfg with
      | Found c => c :: scan_configurations s dev rest
      | NotFound => scan_configurations s dev rest
      | ScanRaised => []
      end
  end.

(** The body of [for dev in devices]. *)
Definition device_entries (s : script) (dev : device) : list controller :=
  match known_name (idVendor dev, idProduct dev) with
  | Some name => [Controller dev (idVendor dev) (idProduct dev) name]
  | None => scan_configurations s dev (configurations dev)
  end.

(** [find_game_controllers] ([find_controllers] in the stand-alone
    script), given what [usb.core.find(find_all=True)] yields. *)
Definition find_game_controllers (s : script) (devices : list device)
    : list controller :=
  devices ≫= device_entries s.

(** The items of a walk, and whether it ends without an exception. *)
Fixpoint walk_items {A : Type} (w : walk A) : list A :=
  match w with
  | WEnd | WRaise => []
  | WItem a rest => a :: walk_items rest
  end.

Fixpoint walk_ends {A : Type} (w : walk A) : Prop :=
  match w with
  | WEnd => True
  | WRaise => False
  | WItem _ rest => walk_ends rest
  end.

(** An interface that makes the scripts take a device for a gamepad. *)
Definition gamepad_interface (intf : interface) : Prop :=
  bInterfaceClass intf = 0x03 ∧
  ¬ (bInterfaceSubClass intf = 1 ∧ bInterfaceProtocol intf ∈ [1; 2]).

#[global] Instance gamepad_interface_dec intf : Decision (gamepad_interface intf).
Proof. unfold gamepad_interface. apply _. Defined.

(** Answers at the selection prompt: what [int(input(...))] does. *)
Inductive input_ev :=
| InputInt (n : Z)   (* the text typed is an integer literal *)
| InputNotInt        (* int raises ValueError *)
| InputEOF           (* input raises EOFError *)
| InputSigInt.       (* Ctrl+C at the prompt: KeyboardInterrupt *)

(** How the selection ends, or that it is still asking. *)
Inductive selection :=
| Selected (c : controller)
| SelectIndexError
| SelectEOFError
| SelectKeyboardInterrupt
| SelectWaiting.

(** The [while True] loop of the prompt.  [snes-mapper.py] catches
    [ValueError] only; the stand-alone script has a bare [except:]. *)
Fixpoint selection_loop (s : script) (controllers : list controller)
    (inputs : list input_ev) : selection :=
  match inputs with
  | [] => SelectWaiting
  | InputInt n :: rest =>
      let idx := n - 1 in
      if decide (0 ≤ idx < Z.of_nat (length controllers)) then
        match controllers !! Z.to_nat idx with
        | Some c => Selected c
        | None =>
            match s with
            | Mapper => SelectIndexError
            | Standalone => selection_loop s controllers rest
            end
        end
      else selection_loop s controllers rest
  | InputNotInt :: rest => selection_loop s controllers rest
  | InputEOF :: rest =>
      match s with
      | Mapper => SelectEOFError
      | Standalone => selection_loop s controllers rest
      end
  | InputSigInt :: rest =>
      match s with
      | Mapper => SelectKeyboardInterrupt
      | Standalone => selection_loop s controllers rest
      end
  end.

(** [select_controller]; in the stand-alone script the selection code
    of [main], which does not ask when there is one controller. *)
Definition select_controller (s : script) (controllers : list controller)
    (inputs : list input_ev) : selection :=
  match s, controllers with
  | Standalone, [c] => Selected c
  | _, _ => selection_loop s controllers inputs
  end.

(** An answer that the prompt rejects and asks again. *)
Definition rejected (s : script) (n_controllers : nat) (i : input_ev) : Prop :=
  match i with
  | InputInt n => ¬ (1 ≤ n ≤ Z.of_nat n_controllers)
  | InputNotInt => True
  | InputEOF | InputSigInt => s = Standalone
  end.

(** A configuration with such an interface. *)
Definition gamepad_configuration (cfg : walk interface) : Prop :=
  Exists gamepad_interface (walk_items cfg).

(** ** The names of the files written and the strings in them *)

(** [format(n, 'x')] for [n >= 0]: lower-case hexadecimal digits. *)
Definition format_x (n : N) : string :=
  match n with
  | N0 => "0"
  | Npos p => HexString.Raw.of_pos p ""
  end.

(** [k] characters [0], the padding. *)
Fixpoint zeros (k : nat) : string :=
  match k with
  | O => ""
  | S k' => String "0" (zeros k')
  end.

(** [f"{n:04x}"]: zero-padded to four characters, the sign included. *)
Definition format_04x (n : Z) : string :=
  match n with
  | Zneg p =>
      let d := format_x (Npos p) in
      String "-" (zeros (3 - String.length d) +:+ d)
  | _ =>
      let d := format_x (Z.to_N n) in
      zeros (4 - String.length d) +:+ d
  end.

(** [f"controller_{vid:04x}_{pid:04x}.json"], the name under which
    both scripts save the configuration. *)
Definition config_filename (vid pid : Z) : string :=
  "controller_" +:+ format_04x vid +:+ "_" +:+ format_04x pid +:+ ".json".

(** A string of hexadecimal digits. *)
Fixpoint all_hex (s : string) : Prop :=
  match s with
  | EmptyString => True
  | String ch s' => is_Some (HexString.ascii_to_digit ch) ∧ all_hex s'
  end.

(** [b.hex()] for one byte, [f"{b:02x}"], and for a report. *)
Definition hex_byte (b : byte) : string :=
  let d := format_x (Byte.to_N b) in
  zeros (2 - String.length d) +:+ d.

Fixpoint hex (r : report) : string :=
  match r with
  | [] => ""
  | b :: r' => hex_byte b +:+ hex r'
  end.

(** Three devices: a boot keyboard, a pad that is not in the table and
    has no product string, and a pad of the table whose descriptors
    cannot be read. *)
Definition keyboard : device :=
  Device 0x046d 0xc31c (ProductName "USB Keyboard")
    (WItem (WItem (Interface 3 1 1) WEnd) WEnd).

Definition unknown_pad : device :=
  Device 0x1234 0x5678 ProductNone
    (WItem (WItem (Interface 3 0 0) WEnd) WEnd).

Definition known_pad : device :=
  Device 0x0810 0xe501 ProductRaises WRaise.

(** A wait in which the button is pressed at once, and one in which
    the clock is past the timeout at the first look. *)
Definition press_world : world :=
  World [0; 1] [UsbData held; UsbData resting] [] [].

Definition late_world : world := World [0; 30000] [] [] [].

(** * Properties *)

(** ** The change detector *)

Section ChangeDetector.
Variable s : script.

Lemma omap_enumerate_cons (i : nat) (a b : byte) (bs rs : report) :
  omap (keep_change s) (enumerate_from i (zip (a :: bs) (b :: rs))) =
  (if decide (a ≠ b) then [mk_change s i a b] else [])
    ++ omap (keep_change s) (enumerate_from (S i) (zip bs rs)).
Proof.
  cbn [zip zip_with enumerate_from omap list_omap keep_change].
  destruct (decide (a ≠ b)); reflexivity.
Qed.

Lemma omap_enumerate_nil_iff (i : nat) (bs rs : report) :
  length bs = length rs →
  omap (keep_change s) (enumerate_from i (zip bs rs)) = [] ↔ bs = rs.
Proof.
  revert i rs. induction bs as [|a bs IH]; intros i [|b rs] Hlen;
    simplify_eq/=; [done|].
  fold (zip bs rs).
  destruct (decide (a ≠ b)) as [Hne|Heq]; simpl.
  - split; [done | intros [=]; contradiction].
  - apply dec_stable in Heq as ->.
    rewrite (IH (S i) rs) by done. split; congruence.
Qed.

Lemma replay_from (p bs rs : report) :
  length bs = length rs →
  replay_changes
    (omap (keep_change s) (enumerate_from (length p) (zip bs rs)))
    (p ++ bs) = p ++ rs.
Proof.
  revert p rs. induction bs as [|a bs IH]; intros p [|b rs] Hlen;
    simplify_eq/=; [done|].
  fold (zip bs rs).
  assert (Hstep : ∀ x : byte, S (length p) = length (p ++ [x])).
  { intros x. rewrite length_app. simpl. lia. }
  destruct (decide (a ≠ b)) as [Hne|Heq]; simpl.
  - unfold replay_changes in *. simpl.
    replace (<[length p:=b]> (p ++ a :: bs)) with ((p ++ [b]) ++ bs).
    + rewrite (Hstep b), IH by done. by rewrite <- app_assoc.
    + rewrite insert_app_r_alt, Nat.sub_diag by lia. simpl.
      by rewrite <- app_assoc.
  - apply dec_stable in Heq as ->.
    replace (p ++ b :: bs) with ((p ++ [b]) ++ bs)
      by (by rewrite <- app_assoc).
    rewrite (Hstep b), IH by done. by rewrite <- app_assoc.
Qed.

(** C8.  For reports of equal length the change list is empty exactly
    when the two reports are byte-identical, and diffing a report
    against itself is always empty. *)
Theorem detect_changes_empty_iff (b r : report) :
  length b = length r →
  (detect_changes s b r = [] ↔ b = r) ∧ detect_changes s b b = [].
Proof.
  intros Hlen. split.
  - by apply omap_enumerate_nil_iff.
  - by apply omap_enumerate_nil_iff.
Qed.

(** C2.  Replaying [detect_changes b r] over a copy of [b] rebuilds
    [r], for reports of equal length. *)
Theorem replay_detect_changes (b r : report) :
  length b = length r →
  replay_changes (detect_changes s b r) b = r.
Proof.
  intros Hlen. apply (replay_from [] b r Hlen).
Qed.

End ChangeDetector.

(** ** The oracle only shrinks *)

Lemma bind_eq {A B : Type} (m : M A) (k : A → M B) (w : world) :
  (m ≫= k) w =
  match m w with
  | Ret a w' => k a w'
  | Raise e w' => Raise e w'
  | Blocked => Blocked
  end.
Proof. reflexivity. Qed.

Lemma bind_Ret_inv {A B : Type} (m : M A) (k : A → M B) w b w'' :
  (m ≫= k) w = Ret b w'' →
  ∃ a w', m w = Ret a w' ∧ k a w' = Ret b w''.
Proof.
  rewrite bind_eq. destruct (m w) as [a w'| |] eqn:Hm; [|done..].
  intros Hk. by exists a, w'.
Qed.

Lemma consuming_nongrowing {A : Type} (m : M A) : consuming m → nongrowing m.
Proof. intros Hm w a w' Hr. apply Nat.lt_le_incl. by eapply Hm. Qed.

Lemma nongrowing_mret {A : Type} (a : A) : nongrowing (mret a).
Proof. intros w a' w' [= _ <-]. done. Qed.

Lemma nongrowing_bind {A B : Type} (m : M A) (k : A → M B) :
  nongrowing m → (∀ a, nongrowing (k a)) → nongrowing (m ≫= k).
Proof.
  intros Hm Hk w b w'' (a & w' & Ha & Hb)%bind_Ret_inv.
  etrans; [by eapply Hk | by eapply Hm].
Qed.

Lemma consuming_bind {A B : Type} (m : M A) (k : A → M B) :
  consuming m → (∀ a, nongrowing (k a)) → consuming (m ≫= k).
Proof.
  intros Hm Hk w b w'' (a & w' & Ha & Hb)%bind_Ret_inv.
  eapply Nat.le_lt_trans; [by eapply Hk | by eapply Hm].
Qed.

Lemma consuming_time_time : consuming time_time.
Proof.
  intros [ck us sl sv] a w'. unfold time_time, world_size. simpl.
  destruct ck; intros [=]; subst; simpl; lia.
Qed.

Lemma consuming_dev_read : consuming dev_read.
Proof.
  intros [ck us sl sv] a w'. unfold dev_read, world_size. simpl.
  destruct us; intros [=]; subst; simpl; lia.
Qed.

Lemma consuming_time_sleep ms : consuming (time_sleep ms).
Proof.
  intros [ck us sl sv] a w'. unfold time_sleep, world_size. simpl.
  destruct sl as [|[] sl]; intros [=]; subst; simpl; lia.
Qed.

Lemma consuming_read_report s timeout : consuming (read_report s timeout).
Proof.
  apply consuming_bind; [apply consuming_dev_read|].
  intros [d| | |]; try apply nongrowing_mret.
  destruct s; [by intros w a w'|apply nongrowing_mret].
Qed.

Lemma nongrowing_loop_rounds {A : Type} (body : M (option A)) (n : nat) :
  nongrowing body → nongrowing (loop_rounds body n).
Proof.
  intros Hb. induction n as [|n IH]; [by intros w a w'|].
  simpl. apply nongrowing_bind; [done|].
  intros [a|]; [apply nongrowing_mret | done].
Qed.

Lemma nongrowing_loop {A : Type} (body : M (option A)) :
  nongrowing body → nongrowing (loop body).
Proof. intros Hb w a w'. by apply nongrowing_loop_rounds. Qed.

(** With more rounds than answers left, the number of rounds does not
    matter. *)
Lemma loop_rounds_enough {A : Type} (body : M (option A)) :
  (∀ w w', body w = Ret None w' → (world_size w' < world_size w)%nat) →
  ∀ n m w, (world_size w < n)%nat → (world_size w < m)%nat →
    loop_rounds body n w = loop_rounds body m w.
Proof.
  intros Hb. induction n as [|n IH]; intros [|m] w Hn Hm; [lia..|].
  simpl. rewrite !bind_eq.
  destruct (body w) as [[a|] w'| |] eqn:Hw; [done| |done..].
  apply Hb in Hw. apply IH; lia.
Qed.

(** The equation of a [while] loop. *)
Lemma loop_unfold {A : Type} (body : M (option A)) :
  (∀ w w', body w = Ret None w' → (world_size w' < world_size w)%nat) →
  ∀ w, loop body w =
       match body w with
       | Ret (Some a) w' => Ret a w'
       | Ret None w' => loop body w'
       | Raise e w' => Raise e w'
       | Blocked => Blocked
       end.
Proof.
  intros Hb w. unfold loop at 1. simpl. rewrite bind_eq.
  destruct (body w) as [[a|] w'| |] eqn:Hw; [done| |done..].
  apply Hb in Hw. unfold loop. apply loop_rounds_enough; [done|lia..].
Qed.

Lemma consuming_release_iteration s baseline :
  consuming (report ← read_report s 50;
             if decide (report = Some baseline) then mret (Some tt)
             else time_sleep 10;; mret None).
Proof.
  apply consuming_bind; [apply consuming_read_report|].
  intros r. destruct (decide _); [apply nongrowing_mret|].
  apply nongrowing_bind; [apply consuming_nongrowing, consuming_time_sleep|].
  intros; apply nongrowing_mret.
Qed.

Lemma nongrowing_wait_for_release s baseline :
  nongrowing (wait_for_release s baseline).
Proof.
  apply nongrowing_loop, consuming_nongrowing, consuming_release_iteration.
Qed.

Lemma consuming_press_iteration s baseline start_time timeout :
  consuming (press_iteration s baseline start_time timeout).
Proof.
  assert (Hsl : nongrowing (time_sleep 10;; mret (@None (option capture)))).
  { apply nongrowing_bind; [apply consuming_nongrowing, consuming_time_sleep|].
    intros; apply nongrowing_mret. }
  apply consuming_bind; [apply consuming_time_time|].
  intros now. destruct (decide _); [|apply nongrowing_mret].
  apply nongrowing_bind; [apply consuming_nongrowing, consuming_read_report|].
  intros [r|]; [|done].
  destruct (_ && _); [|done].
  destruct (detect_changes s baseline r); [done|].
  apply nongrowing_bind; [apply nongrowing_wait_for_release|].
  intros; apply nongrowing_mret.
Qed.

(** The two loops of [wait_for_button], unrolled once. *)
Lemma wait_for_release_unfold s baseline w :
  wait_for_release s baseline w =
  match read_report s 50 w with
  | Ret report w1 =>
      if decide (report = Some baseline) then Ret tt w1
      else match time_sleep 10 w1 with
           | Ret _ w2 => wait_for_release s baseline w2
           | Raise e w2 => Raise e w2
           | Blocked => Blocked
           end
  | Raise e w1 => Raise e w1
  | Blocked => Blocked
  end.
Proof.
  unfold wait_for_release. rewrite loop_unfold.
  - rewrite bind_eq. destruct (read_report s 50 w) as [r w1| |]; [|done..].
    destruct (decide _); [done|]. rewrite bind_eq.
    by destruct (time_sleep 10 w1).
  - intros w0 w'. apply consuming_release_iteration.
Qed.

Lemma press_loop_unfold s baseline start_time timeout w :
  loop (press_iteration s baseline start_time timeout) w =
  match press_iteration s baseline start_time timeout w with
  | Ret (Some a) w' => Ret a w'
  | Ret None w' => loop (press_iteration s baseline start_time timeout) w'
  | Raise e w' => Raise e w'
  | Blocked => Blocked
  end.
Proof.
  apply loop_unfold. intros w0 w'. apply consuming_press_iteration.
Qed.

(** ** The selection step of [get_baseline] *)

(** [max] returns the first item of maximal key. *)
Lemma max_from_first_maximal {A : Type} (key : A → nat) (best : A) (xs : list A) :
  ∃ pre post,
    best :: xs = pre ++ max_from key best xs :: post ∧
    (∀ x, x ∈ pre → (key x < key (max_from key best xs))%nat) ∧
    (∀ x, x ∈ post → (key x ≤ key (max_from key best xs))%nat).
Proof.
  revert best. induction xs as [|x xs IH]; intros best; simpl.
  - exists [], []. split_and!; [done|by intros ? ?%elem_of_nil..].
  - destruct (Nat.ltb_spec (key best) (key x)) as [Hlt|Hge].
    + destruct (IH x) as (pre & post & Heq & Hpre & Hpost).
      exists (best :: pre), post. split_and!; [by rewrite Heq| |done].
      intros y [->|Hy]%elem_of_cons; [|by apply Hpre].
      assert (Hx : (key x ≤ key (max_from key x xs))%nat); [|lia].
      destruct pre as [|p pre].
      * injection Heq as Hm _. by rewrite <- Hm.
      * injection Heq as -> _. apply Nat.lt_le_incl, Hpre. by left.
    + destruct (IH best) as (pre & post & Heq & Hpre & Hpost).
      destruct pre as [|p pre].
      * injection Heq as Hm Hxs.
        exists [], (x :: xs). split_and!.
        -- simpl. by rewrite <- Hm.
        -- by intros ? ?%elem_of_nil.
        -- intros y [->|Hy]%elem_of_cons; [by rewrite <- Hm|].
           apply Hpost. by rewrite <- Hxs.
      * injection Heq as -> Hxs.
        exists (p :: x :: pre), post. split_and!.
        -- simpl. by rewrite <- Hxs.
        -- assert (Hp : (key p < key (max_from key p xs))%nat).
           { apply Hpre. by left. }
           intros y [->|[->|Hy]%elem_of_cons]%elem_of_cons; [done|lia|].
           apply Hpre. by right.
        -- done.
Qed.

Lemma count_pos_elem_of (v : report) (reports : list report) :
  (0 < count v reports)%nat ↔ v ∈ reports.
Proof.
  induction reports as [|x reports IH]; simpl.
  - split; [lia | by intros ?%elem_of_nil].
  - rewrite elem_of_cons. destruct (decide (x = v)) as [->|Hne].
    + split; [by left | lia].
    + rewrite <- IH. simpl. split; [by right | by intros [?|?]].
Qed.

Lemma count_Permutation (v : report) (l l' : list report) :
  l ≡ₚ l' → count v l = count v l'.
Proof.
  induction 1 as [|x l l' H IH|x y l|l l' l'' H1 IH1 H2 IH2]; simpl;
    [done|by rewrite IH|lia|congruence].
Qed.

Lemma count_two_le_length (x v : report) (reports : list report) :
  x ≠ v → (count x reports + count v reports ≤ length reports)%nat.
Proof.
  intros Hne. induction reports as [|y reports IH]; simpl; [done|].
  destruct (decide (y = x)), (decide (y = v)); simplify_eq; lia.
Qed.

Lemma set_iteration_first_occurrences : set_iteration first_occurrences.
Proof.
  intros reports. unfold first_occurrences. split.
  - rewrite reverse_Permutation. apply NoDup_remove_dups.
  - intros x. by rewrite elem_of_reverse, elem_of_remove_dups, elem_of_reverse.
Qed.

Lemma set_iteration_last_to_first : set_iteration last_to_first.
Proof.
  intros reports. unfold last_to_first. split.
  - apply NoDup_remove_dups.
  - intros x. by rewrite elem_of_remove_dups, elem_of_reverse.
Qed.

Section Selection.
Variable set_iter : list report → list report.
Hypothesis set_iter_ok : set_iteration set_iter.

Lemma most_common_spec (reports : list report) :
  reports ≠ [] →
  ∃ v pre post,
    most_common set_iter reports = Some v ∧
    set_iter reports = pre ++ v :: post ∧
    v ∈ reports ∧
    (∀ x, count x reports ≤ count v reports)%nat ∧
    (∀ x, x ∈ pre → count x reports < count v reports)%nat.
Proof.
  intros Hne. destruct (set_iter_ok reports) as [_ Hin].
  unfold most_common. destruct (set_iter reports) as [|b xs] eqn:Hset.
  { destruct reports as [|r reports]; [done|].
    assert (Hr : r ∈ @nil report) by (apply Hin; by left).
    by apply elem_of_nil in Hr. }
  destruct (max_from_first_maximal (λ r, count r reports) b xs)
    as (pre & post & Heq & Hpre & Hpost).
  set (v := max_from (λ r, count r reports) b xs) in *.
  assert (Hv : v ∈ reports).
  { apply Hin. rewrite Heq. apply elem_of_app. right. by left. }
  exists v, pre, post. split_and!; [done..| |done].
  intros x. destruct (decide (x ∈ reports)) as [Hx|Hx].
  - apply Hin in Hx. rewrite Heq in Hx.
    apply elem_of_app in Hx as [Hx|[->|Hx]%elem_of_cons].
    + by apply Nat.lt_le_incl, Hpre.
    + done.
    + by apply Hpost.
  - rewrite <- count_pos_elem_of in Hx. lia.
Qed.

(** C4 (as amended).  Of the values tied for the highest count the
    selection step returns the one that comes first in the iteration
    order of the set: a value of the samples that no value outnumbers
    and that every value before it in that order falls short of. *)
Theorem most_common_first_in_set_order (reports : list report) :
  reports ≠ [] →
  ∃ v pre post,
    most_common set_iter reports = Some v ∧
    set_iter reports = pre ++ v :: post ∧
    v ∈ reports ∧
    (∀ x, count x reports ≤ count v reports)%nat ∧
    (∀ x, x ∈ pre → count x reports < count v reports)%nat.
Proof. apply most_common_spec. Qed.

(** C1.  A value that makes up a strict majority of the samples is the
    one selected, however the samples are ordered. *)
Theorem most_common_majority (reports reports' : list report) (v : report) :
  (length reports < 2 * count v reports)%nat →
  reports' ≡ₚ reports →
  most_common set_iter reports' = Some v.
Proof.
  intros Hmaj Hperm.
  rewrite <- (count_Permutation v _ _ Hperm) in Hmaj.
  rewrite <- (Permutation_length Hperm) in Hmaj.
  assert (Hne : reports' ≠ []).
  { intros ->. simpl in Hmaj. lia. }
  destruct (most_common_spec reports' Hne)
    as (v' & pre & post & Hsel & _ & _ & Hmax & _).
  rewrite Hsel. f_equal. destruct (decide (v' = v)) as [|Hv]; [done|].
  pose proof (Hmax v). pose proof (count_two_le_length v' v reports' Hv). lia.
Qed.

End Selection.

(** ** What the change detector lists *)

Lemma elem_of_changes_from (s : script) (i : nat) (bs rs : report) (c : change) :
  c ∈ omap (keep_change s) (enumerate_from i (zip bs rs)) ↔
  ∃ j a b, bs !! j = Some a ∧ rs !! j = Some b ∧ a ≠ b ∧
           c = mk_change s (i + j) a b.
Proof.
  revert i rs. induction bs as [|a bs IH]; intros i [|b rs].
  - split; [by intros ?%elem_of_nil | by intros (j & ? & ? & ? & _)].
  - split; [by intros ?%elem_of_nil | by intros (j & ? & ? & ? & _)].
  - split; [by intros ?%elem_of_nil | by intros (j & ? & ? & _ & ? & _)].
  - rewrite omap_enumerate_cons, elem_of_app, IH. split.
    + intros [Hc|(j & a' & b' & Ha & Hb & Hne & ->)].
      * destruct (decide (a ≠ b)) as [Hne|]; [|by apply elem_of_nil in Hc].
        apply list_elem_of_singleton in Hc as ->.
        exists O, a, b. by rewrite Nat.add_0_r.
      * exists (S j), a', b'. split_and!; [done..|]. f_equal. lia.
    + intros ([|j] & a' & b' & Ha & Hb & Hne & ->); simplify_eq/=.
      * left. rewrite decide_True by done. rewrite Nat.add_0_r. by left.
      * right. exists j, a', b'. split_and!; [done..|]. f_equal. lia.
Qed.

Lemma changes_from_sorted (s : script) (i : nat) (bs rs : report) :
  StronglySorted lt
    (ch_byte <$> omap (keep_change s) (enumerate_from i (zip bs rs))).
Proof.
  revert i rs. induction bs as [|a bs IH]; intros i [|b rs];
    [constructor..|].
  rewrite omap_enumerate_cons.
  destruct (decide (a ≠ b)); simpl; [|apply IH].
  constructor; [apply IH|].
  apply Forall_forall. intros k (c & -> & Hc)%list_elem_of_fmap.
  apply elem_of_changes_from in Hc as (j & a' & b' & _ & _ & _ & ->).
  simpl. lia.
Qed.

Lemma changes_from_take (s : script) (i : nat) (bs rs : report) :
  omap (keep_change s) (enumerate_from i (zip bs rs)) =
  omap (keep_change s)
    (enumerate_from i (zip (take (length rs) bs) (take (length bs) rs))).
Proof.
  revert i rs. induction bs as [|a bs IH]; intros i [|b rs]; [done..|].
  cbn [length take]. rewrite !omap_enumerate_cons. f_equal. apply IH.
Qed.

(** C5 (as amended).  The change detector accepts reports of any two
    lengths: what it returns is the diff of their common prefix, that
    is one change for each position present in both reports at which
    they differ. *)
Theorem detect_changes_common_prefix (s : script) (b r : report) :
  detect_changes s b r =
    detect_changes s (take (length r) b) (take (length b) r) ∧
  ∀ c, c ∈ detect_changes s b r ↔
       ∃ i x y, b !! i = Some x ∧ r !! i = Some y ∧ x ≠ y ∧
                c = mk_change s i x y.
Proof.
  split; [apply changes_from_take|].
  intros c. apply (elem_of_changes_from s 0 b r c).
Qed.

(** ** Baseline sampling *)

Lemma read_report_cons s timeout ck u us sl sv :
  read_report s timeout (World ck (u :: us) sl sv) =
  match s, u with
  | Mapper, UsbSigInt => Raise KeyboardInterrupt (World ck us sl sv)
  | _, _ => Ret (read_value u) (World ck us sl sv)
  end.
Proof. by destruct s, u. Qed.

Lemma collect_nil_iff us :
  collect us = [] ↔ Forall (λ u, yields_data u = false) us.
Proof.
  induction us as [|u us IH]; [done|].
  rewrite Forall_cons, <- IH. unfold collect. simpl.
  destruct u as [[|b d]| | |]; simpl; split;
    first [done | by intros [? ?] | by split].
Qed.

Lemma collect_nonempty us r : r ∈ collect us → r ≠ [].
Proof.
  unfold collect. intros (u & _ & Hu)%list_elem_of_omap.
  by destruct u as [[|b d]| | |]; simplify_eq.
Qed.

(** Twenty reads, each followed by a pause that is not interrupted. *)
Lemma sample_reports_run s n us acc ck rest sl sv :
  length us = n →
  (s = Mapper → UsbSigInt ∉ us) →
  sample_reports s n acc (World ck (us ++ rest) (replicate n Slept ++ sl) sv) =
  Ret (acc ++ collect us) (World ck rest sl sv).
Proof.
  revert us acc. induction n as [|n IH]; intros [|u us] acc Hlen Hsig;
    simplify_eq/=.
  { by rewrite app_nil_r. }
  rewrite bind_eq, read_report_cons.
  assert (Hu : s = Mapper → u ≠ UsbSigInt).
  { intros Hs ->. apply (Hsig Hs). by left. }
  assert (Hus : s = Mapper → UsbSigInt ∉ us).
  { intros Hs Hin. apply (Hsig Hs). by right. }
  destruct s, u as [[|b d]| | |]; try (by destruct Hu);
    rewrite bind_eq; cbn; rewrite IH by done; unfold collect; simpl;
    by rewrite <- ?app_assoc.
Qed.

Lemma get_baseline_run s set_iter ck us rest sl sv :
  length us = 20%nat →
  (s = Mapper → UsbSigInt ∉ us) →
  get_baseline s set_iter
    (World ck (us ++ rest) (replicate (pauses s) Slept ++ sl) sv) =
  match collect us with
  | [] => Raise (SystemExit 1) (World ck rest sl sv)
  | r :: rs =>
      match most_common set_iter (r :: rs) with
      | Some baseline => Ret baseline (World ck rest sl sv)
      | None => Raise ValueError (World ck rest sl sv)
      end
  end.
Proof.
  intros Hlen Hsig. unfold get_baseline. rewrite bind_eq.
  assert (Hsample :
    (sample_reports s 20 [] ≫= λ reports,
       match reports with
       | [] => sys_exit 1
       | _ :: _ =>
           match most_common set_iter reports with
           | Some baseline => mret baseline
           | None => raise ValueError
           end
       end) (World ck (us ++ rest) (replicate 20 Slept ++ sl) sv) =
    match collect us with
    | [] => Raise (SystemExit 1) (World ck rest sl sv)
    | r :: rs =>
        match most_common set_iter (r :: rs) with
        | Some baseline => Ret baseline (World ck rest sl sv)
        | None => Raise ValueError (World ck rest sl sv)
        end
    end).
  { rewrite bind_eq, sample_reports_run by done. simpl.
    destruct (collect us) as [|r rs]; [done|].
    by destruct (most_common set_iter (r :: rs)). }
  destruct s; exact Hsample.
Qed.

Lemma sample_reports_nonempty s n acc w reports w' :
  Forall (λ r, r ≠ []) acc →
  sample_reports s n acc w = Ret reports w' →
  Forall (λ r, r ≠ []) reports.
Proof.
  revert acc w. induction n as [|n IH]; intros acc w Hacc; simpl.
  { by intros [= <- _]. }
  intros (r & w1 & _ & (_ & w2 & _ & Hrest)%bind_Ret_inv)%bind_Ret_inv.
  eapply IH; [|done].
  destruct r as [[|b d]|]; simpl; [done| |done].
  apply Forall_app. split; [done|]. by apply Forall_singleton.
Qed.

Lemma get_baseline_nonempty s set_iter w baseline w' :
  set_iteration set_iter →
  get_baseline s set_iter w = Ret baseline w' →
  baseline ≠ [].
Proof.
  intros Hset. unfold get_baseline.
  intros (_ & w1 & _ & (reports & w2 & Hs & Hsel)%bind_Ret_inv)%bind_Ret_inv.
  apply sample_reports_nonempty in Hs; [|done].
  destruct reports as [|r rs]; [done|].
  destruct (most_common_spec set_iter Hset (r :: rs))
    as (v & pre & post & Hv & _ & Hin & _); [done|].
  rewrite Hv in Hsel. injection Hsel as -> _.
  by apply (proj1 (Forall_forall _ _) Hs).
Qed.

(** C7.  When the twenty reads of [get_baseline] all yield no data it
    exits with status 1, and so do [map_controller] and [main], before
    any configuration is written; when at least one read yields data
    it returns a baseline, one of the reports read. *)
Theorem no_signal_iff_no_data s set_iter ck us rest sl sv :
  set_iteration set_iter →
  length us = 20%nat →
  (s = Mapper → UsbSigInt ∉ us) →
  let w := World ck (us ++ rest) (replicate (pauses s) Slept ++ sl) sv in
  let w' := World ck rest sl sv in
  (Forall (λ u, yields_data u = false) us →
     get_baseline s set_iter w = Raise (SystemExit 1) w' ∧
     map_controller s set_iter w = Raise (SystemExit 1) w' ∧
     main s set_iter w = Raise (SystemExit 1) w') ∧
  (Exists (λ u, yields_data u = true) us →
     ∃ baseline, get_baseline s set_iter w = Ret baseline w' ∧
                 baseline ∈ collect us).
Proof.
  intros Hset Hlen Hsig w w'.
  pose proof (get_baseline_run s set_iter ck us rest sl sv Hlen Hsig) as Hrun.
  fold w w' in Hrun. split.
  - intros Hnone%collect_nil_iff. rewrite Hnone in Hrun.
    unfold main, map_controller. by rewrite !bind_eq, Hrun.
  - intros Hsome. destruct (collect us) as [|r rs] eqn:Hc.
    { apply collect_nil_iff in Hc. apply Exists_exists in Hsome as (u & Hu & Hd).
      rewrite Forall_forall in Hc. specialize (Hc u Hu). congruence. }
    destruct (most_common_spec set_iter Hset (r :: rs))
      as (v & pre & post & Hv & _ & Hin & _); [done|].
    rewrite Hv in Hrun. by exists v.
Qed.

(** ** One iteration of the press loop, case by case *)

Lemma read_report_cases s timeout ck u us sl sv :
  read_report s timeout (World ck (u :: us) sl sv) =
    Ret (read_value u) (World ck us sl sv) ∨
  (s = Mapper ∧ u = UsbSigInt ∧
   read_report s timeout (World ck (u :: us) sl sv) =
     Raise KeyboardInterrupt (World ck us sl sv)).
Proof. destruct s, u; auto. Qed.

Lemma press_iteration_no_clock s baseline start timeout us sl sv :
  press_iteration s baseline start timeout (World [] us sl sv) = Blocked.
Proof. done. Qed.

Lemma press_iteration_expired s baseline start timeout now ck us sl sv :
  ¬ (now - start < timeout) →
  press_iteration s baseline start timeout (World (now :: ck) us sl sv) =
  Ret (Some None) (World ck us sl sv).
Proof.
  intros Hexp. unfold press_iteration. rewrite bind_eq. simpl.
  by rewrite decide_False.
Qed.

Lemma press_iteration_no_read s baseline start timeout now ck sl sv :
  now - start < timeout →
  press_iteration s baseline start timeout (World (now :: ck) [] sl sv) =
  Blocked.
Proof.
  intros Hin. unfold press_iteration. rewrite bind_eq. simpl.
  by rewrite decide_True.
Qed.

Lemma press_iteration_sigint baseline start timeout now ck us sl sv :
  now - start < timeout →
  press_iteration Mapper baseline start timeout
    (World (now :: ck) (UsbSigInt :: us) sl sv) =
  Raise KeyboardInterrupt (World ck us sl sv).
Proof.
  intros Hin. unfold press_iteration. rewrite bind_eq. simpl.
  by rewrite decide_True.
Qed.

Lemma press_iteration_confirm s baseline start timeout now ck u us sl sv :
  now - start < timeout →
  confirms s baseline u = true →
  ∃ r, u = UsbData r ∧
  press_iteration s baseline start timeout (World (now :: ck) (u :: us) sl sv) =
  match wait_for_release s baseline (World ck us sl sv) with
  | Ret _ w2 => Ret (Some (Some (Capture r (detect_changes s baseline r)))) w2
  | Raise e w2 => Raise e w2
  | Blocked => Blocked
  end.
Proof.
  intros Hin Hc. destruct u as [r| | |]; [|done..]. exists r. split; [done|].
  unfold press_iteration. rewrite bind_eq. simpl.
  rewrite decide_True, bind_eq by done.
  destruct (read_report_cases s 50 ck (UsbData r) us sl sv)
    as [->|(_ & [=] & _)].
  simpl in *. apply andb_true_iff in Hc as [-> Hch].
  destruct (detect_changes s baseline r) as [|c cs]; [done|].
  rewrite bind_eq. by destruct (wait_for_release _ _ _).
Qed.

Lemma press_iteration_idle s baseline start timeout now ck u us sl sv :
  now - start < timeout →
  confirms s baseline u = false →
  ¬ (s = Mapper ∧ u = UsbSigInt) →
  press_iteration s baseline start timeout (World (now :: ck) (u :: us) sl sv) =
  match sl with
  | [] => Blocked
  | Slept :: sl' => Ret None (World ck us sl' sv)
  | SleepSigInt :: sl' => Raise KeyboardInterrupt (World ck us sl' sv)
  end.
Proof.
  intros Hin Hc Hsig. unfold press_iteration. rewrite bind_eq. simpl.
  rewrite decide_True, bind_eq by done.
  destruct (read_report_cases s 50 ck u us sl sv) as [->|(-> & -> & _)];
    [|by destruct Hsig].
  assert (Hsleep : (time_sleep 10 ≫= λ _, mret (@None (option capture)))
                     (World ck us sl sv) =
                   match sl with
                   | [] => Blocked
                   | Slept :: sl' => Ret None (World ck us sl' sv)
                   | SleepSigInt :: sl' =>
                       Raise KeyboardInterrupt (World ck us sl' sv)
                   end).
  { rewrite bind_eq. by destruct sl as [|[] sl]. }
  destruct u as [r| | |]; simpl in *; [|done..].
  destruct (_ && bool_decide _); [|done].
  by destruct (detect_changes s baseline r).
Qed.

(** ** What [wait_for_button] has read when it returns *)

Lemma wait_for_release_Ret s baseline us ck sl sv r w' :
  wait_for_release s baseline (World ck us sl sv) = Ret r w' →
  ∃ mid, us = mid ++ UsbData baseline :: usb w' ∧
         (UsbData baseline ∉ mid) ∧ clock w' = ck ∧ saved w' = sv.
Proof.
  revert sl. induction us as [|u us IH]; intros sl;
    rewrite wait_for_release_unfold; [done|].
  destruct (read_report_cases s 50 ck u us sl sv) as [->|(_ & _ & ->)];
    [|done].
  destruct (decide (read_value u = Some baseline)) as [Hu|Hu].
  - intros [= _ <-]. destruct u; simplify_eq/=.
    exists []. split_and!; [done| |done..]. by intros ?%elem_of_nil.
  - destruct sl as [|[] sl]; [done| |done]. simpl.
    intros (mid & -> & Hmid & Hck & Hsv)%IH.
    exists (u :: mid). split_and!; [done| |done..].
    intros [<-|?]%elem_of_cons; [by apply Hu|done].
Qed.

Lemma press_loop_Some s baseline start timeout ck us sl sv c w' :
  loop (press_iteration s baseline start timeout) (World ck us sl sv) =
    Ret (Some c) w' →
  ∃ pre mid,
    us = pre ++ UsbData (cap_report c) :: mid ++ UsbData baseline :: usb w' ∧
    Forall (λ u, confirms s baseline u = false) pre ∧
    confirms s baseline (UsbData (cap_report c)) = true ∧
    cap_changes c = detect_changes s baseline (cap_report c) ∧
    (UsbData baseline ∉ mid) ∧
    saved w' = sv.
Proof.
  revert us sl. induction ck as [|now ck IH]; intros us sl;
    rewrite press_loop_unfold.
  { by rewrite press_iteration_no_clock. }
  destruct (decide (now - start < timeout)) as [Hin|Hexp];
    [|by rewrite press_iteration_expired].
  destruct us as [|u us]; [by rewrite press_iteration_no_read|].
  destruct (confirms s baseline u) eqn:Hc.
  - destruct (press_iteration_confirm s baseline start timeout now ck u us sl sv)
      as (r & -> & ->); [done..|].
    destruct (wait_for_release s baseline _) as [[] w2| |] eqn:Hrel; [|done..].
    intros [= <- <-].
    apply wait_for_release_Ret in Hrel as (mid & -> & Hmid & _ & Hsv).
    exists [], mid. by split_and!.
  - destruct (decide (s = Mapper ∧ u = UsbSigInt)) as [[-> ->]|Hsig].
    { by rewrite press_iteration_sigint. }
    rewrite press_iteration_idle by done.
    destruct sl as [|[] sl]; [done| |done].
    intros (pre & mid & -> & Hpre & Hrest)%IH.
    exists (u :: pre), mid. split_and!; [done| |apply Hrest..].
    by constructor.
Qed.

Lemma press_loop_None s baseline start timeout ck us sl sv w' :
  loop (press_iteration s baseline start timeout) (World ck us sl sv) =
    Ret None w' →
  ∃ pre, us = pre ++ usb w' ∧
         Forall (λ u, confirms s baseline u = false) pre ∧
         saved w' = sv.
Proof.
  revert us sl. induction ck as [|now ck IH]; intros us sl;
    rewrite press_loop_unfold.
  { by rewrite press_iteration_no_clock. }
  destruct (decide (now - start < timeout)) as [Hin|Hexp].
  2:{ rewrite press_iteration_expired by done. intros [= <-].
      exists []. by split_and!. }
  destruct us as [|u us]; [by rewrite press_iteration_no_read|].
  destruct (confirms s baseline u) eqn:Hc.
  - destruct (press_iteration_confirm s baseline start timeout now ck u us sl sv)
      as (r & -> & ->); [done..|].
    by destruct (wait_for_release s baseline _) as [[] w2| |].
  - destruct (decide (s = Mapper ∧ u = UsbSigInt)) as [[-> ->]|Hsig].
    { by rewrite press_iteration_sigint. }
    rewrite press_iteration_idle by done.
    destruct sl as [|[] sl]; [done| |done].
    intros (pre & -> & Hpre & Hsv)%IH.
    exists (u :: pre). split_and!; [done| |done]. by constructor.
Qed.

Lemma wait_for_button_cons s baseline timeout start ck us sl sv :
  wait_for_button s baseline timeout (World (start :: ck) us sl sv) =
  loop (press_iteration s baseline start timeout) (World ck us sl sv).
Proof. done. Qed.

Lemma wait_for_button_Some s baseline timeout ck us sl sv c w' :
  wait_for_button s baseline timeout (World ck us sl sv) = Ret (Some c) w' →
  ∃ pre mid,
    us = pre ++ UsbData (cap_report c) :: mid ++ UsbData baseline :: usb w' ∧
    Forall (λ u, confirms s baseline u = false) pre ∧
    confirms s baseline (UsbData (cap_report c)) = true ∧
    cap_changes c = detect_changes s baseline (cap_report c) ∧
    (UsbData baseline ∉ mid) ∧
    saved w' = sv.
Proof.
  destruct ck as [|start ck]; [done|].
  rewrite wait_for_button_cons. apply press_loop_Some.
Qed.

Lemma wait_for_button_None s baseline timeout ck us sl sv w' :
  wait_for_button s baseline timeout (World ck us sl sv) = Ret None w' →
  ∃ pre, us = pre ++ usb w' ∧
         Forall (λ u, confirms s baseline u = false) pre ∧
         saved w' = sv.
Proof.
  destruct ck as [|start ck]; [done|].
  rewrite wait_for_button_cons. apply press_loop_None.
Qed.

Lemma wait_for_release_stuck s baseline us ck sl sv :
  UsbData baseline ∉ us →
  wait_for_release s baseline (World ck us sl sv) = Blocked ∨
  ∃ w', wait_for_release s baseline (World ck us sl sv) =
        Raise KeyboardInterrupt w'.
Proof.
  revert sl. induction us as [|u us IH]; intros sl Hnone;
    rewrite wait_for_release_unfold; [by left|].
  destruct (read_report_cases s 50 ck u us sl sv) as [->|(_ & _ & ->)];
    [|by right; eexists].
  rewrite decide_False.
  - destruct sl as [|[] sl]; simpl; [by left| |by right; eexists].
    apply IH. intros Hin. apply Hnone. by right.
  - intros Hu. apply Hnone. destruct u; simplify_eq/=. by left.
Qed.

(** Once the confirming read has been taken, only a read equal to the
    baseline lets the loop return. *)
Lemma press_loop_confirmed s baseline start timeout ck pre u rest sl sv res w' :
  Forall (λ u, confirms s baseline u = false) pre →
  confirms s baseline u = true →
  UsbData baseline ∉ rest →
  loop (press_iteration s baseline start timeout)
    (World ck (pre ++ u :: rest) sl sv) = Ret res w' →
  res = None ∧ ∃ pre1 pre2, pre = pre1 ++ pre2 ∧ usb w' = pre2 ++ u :: rest.
Proof.
  intros Hpre Hu Hrest. revert pre sl Hpre.
  induction ck as [|now ck IH]; intros pre sl Hpre;
    rewrite press_loop_unfold.
  { by rewrite press_iteration_no_clock. }
  destruct (decide (now - start < timeout)) as [Hin|Hexp].
  2:{ rewrite press_iteration_expired by done. intros [= <- <-].
      split; [done|]. by exists [], pre. }
  destruct pre as [|p pre]; simpl.
  - destruct (press_iteration_confirm s baseline start timeout now ck u rest sl sv)
      as (r & -> & ->); [done..|].
    destruct (wait_for_release s baseline _) as [[] w2| |] eqn:Hrel; [|done..].
    apply wait_for_release_Ret in Hrel as (mid & -> & _).
    destruct Hrest. apply elem_of_app. right. by left.
  - apply Forall_cons in Hpre as [Hp Hpre].
    destruct (decide (s = Mapper ∧ p = UsbSigInt)) as [[-> ->]|Hsig].
    { by rewrite press_iteration_sigint. }
    rewrite press_iteration_idle by done.
    destruct sl as [|[] sl]; [done| |done].
    intros (-> & pre1 & pre2 & -> & Hw)%IH; [|done].
    split; [done|]. by exists (p :: pre1), pre2.
Qed.

(** C6.  What [wait_for_button] has read when it returns.  If it
    returns no capture, no read confirmed a press.  If it returns a
    capture, the reads after the confirming one end with the first read
    equal to the baseline.  If no read after the first confirming one
    equals the baseline, it returns only by timing out before that read
    is taken, whatever the clock shows afterwards.  And the release
    loop on its own: with no read equal to the baseline it does not
    return; it is still waiting when the reads run out, unless Ctrl+C
    ends it. *)
Theorem release_wait_ends_only_at_baseline s baseline timeout ck us sl sv :
  (∀ w', wait_for_button s baseline timeout (World ck us sl sv) = Ret None w' →
     ∃ pre, us = pre ++ usb w' ∧
            Forall (λ u, confirms s baseline u = false) pre) ∧
  (∀ c w',
     wait_for_button s baseline timeout (World ck us sl sv) = Ret (Some c) w' →
     ∃ pre mid,
       us = pre ++ UsbData (cap_report c) :: mid
                ++ UsbData baseline :: usb w' ∧
       Forall (λ u, confirms s baseline u = false) pre ∧
       confirms s baseline (UsbData (cap_report c)) = true ∧
       (UsbData baseline ∉ mid)) ∧
  (∀ pre u rest res w',
     us = pre ++ u :: rest →
     Forall (λ u, confirms s baseline u = false) pre →
     confirms s baseline u = true →
     UsbData baseline ∉ rest →
     wait_for_button s baseline timeout (World ck us sl sv) = Ret res w' →
     res = None ∧ ∃ pre1 pre2, pre = pre1 ++ pre2 ∧ usb w' = pre2 ++ u :: rest) ∧
  (UsbData baseline ∉ us →
   (∀ r w', wait_for_release s baseline (World ck us sl sv) ≠ Ret r w') ∧
   (wait_for_release s baseline (World ck us sl sv) = Blocked ∨
    ∃ w', wait_for_release s baseline (World ck us sl sv) =
          Raise KeyboardInterrupt w')).
Proof.
  split_and!.
  - intros w' (pre & Hus & Hpre & _)%wait_for_button_None. by exists pre.
  - intros c w' (pre & mid & Hus & Hpre & Hc & _ & Hmid & _)%wait_for_button_Some.
    by exists pre, mid.
  - intros pre u rest res w' -> Hpre Hu Hrest.
    destruct ck as [|start ck]; [done|].
    rewrite wait_for_button_cons. by apply press_loop_confirmed.
  - intros Hnone. split; [|by apply wait_for_release_stuck].
    intros r w' (mid & -> & _)%wait_for_release_Ret.
    apply Hnone, elem_of_app. right. by left.
Qed.

(** ** The session *)

Lemma map_button_eq s baseline key_name m w :
  map_button s baseline key_name m w =
  match wait_for_button s baseline (default_timeout s) w with
  | Ret (Some c) w' => Ret (set_button key_name c m) w'
  | Ret None w' => Ret m w'
  | Raise KeyboardInterrupt w' => Ret m w'
  | Raise e w' => Raise e w'
  | Blocked => Blocked
  end.
Proof.
  unfold map_button, try_except_KeyboardInterrupt. rewrite bind_eq.
  by destruct (wait_for_button _ _ _ _) as [[c|] w'|[] w'|].
Qed.

Lemma detect_changes_capture_ok s baseline r :
  detect_changes s baseline r ≠ [] →
  capture_ok baseline (Capture r (detect_changes s baseline r)).
Proof.
  intros Hne. split_and!; [done|apply changes_from_sorted|].
  intros ch (i & x & y & Hx & _ & _ & ->)%elem_of_changes_from. done.
Qed.

Lemma confirms_changes s baseline r :
  confirms s baseline (UsbData r) = true →
  r ≠ [] ∧ detect_changes s baseline r ≠ [].
Proof.
  simpl. intros [[Hr _]%andb_true_iff Hch]%andb_true_iff.
  split; [by destruct r|]. by destruct (detect_changes s baseline r).
Qed.

Lemma map_button_invariant s baseline key_name m w m' w' :
  m_baseline m = baseline →
  (∀ k c, m_buttons m !! k = Some c → capture_ok baseline c) →
  map_button s baseline key_name m w = Ret m' w' →
  m_baseline m' = baseline ∧
  ∀ k c, m_buttons m' !! k = Some c → capture_ok baseline c.
Proof.
  intros Hb Hm. rewrite map_button_eq. destruct w as [ck us sl sv].
  destruct (wait_for_button _ _ _ _) as [[c|] w1|[] w1|] eqn:Hw;
    intros [= <- <-]; try done.
  split; [done|]. simpl. intros k c'.
  destruct (decide (key_name = k)) as [->|Hk].
  - rewrite lookup_insert_eq. intros [= <-].
    apply wait_for_button_Some
      in Hw as (pre & mid & _ & _ & Hc & Hch & _).
    apply confirms_changes in Hc as [_ Hne].
    destruct c as [r chs]. simpl in *. subst chs.
    by apply detect_changes_capture_ok.
  - rewrite lookup_insert_ne by done. apply Hm.
Qed.

Lemma map_buttons_invariant s baseline keys m w m' w' :
  m_baseline m = baseline →
  (∀ k c, m_buttons m !! k = Some c → capture_ok baseline c) →
  map_buttons s baseline keys m w = Ret m' w' →
  m_baseline m' = baseline ∧
  ∀ k c, m_buttons m' !! k = Some c → capture_ok baseline c.
Proof.
  revert m w. induction keys as [|key_name keys IH]; intros m w Hb Hm; simpl.
  { by intros [= <- <-]. }
  intros (m1 & w1 & H1 & Hrest)%bind_Ret_inv.
  destruct (map_button_invariant _ _ _ _ _ _ _ Hb Hm H1) as [Hb1 Hm1].
  by eapply IH.
Qed.

(** C9.  Every capture in the mapping returned by [map_controller] has
    at least one change, its changes are in strictly ascending byte
    position, and each change's old value is the baseline's byte at
    its position. *)
Theorem recorded_captures_ok s set_iter w m w' :
  map_controller s set_iter w = Ret m w' →
  ∀ key_name c, m_buttons m !! key_name = Some c →
    cap_changes c ≠ [] ∧
    StronglySorted lt (ch_byte <$> cap_changes c) ∧
    ∀ ch, ch ∈ cap_changes c → m_baseline m !! ch_byte ch = Some (ch_from ch).
Proof.
  unfold map_controller.
  intros (baseline & w1 & _ & Hrun)%bind_Ret_inv key_name c Hc.
  apply map_buttons_invariant in Hrun as [Hb Hm]; [|done|].
  - rewrite Hb. by apply (Hm key_name c).
  - simpl. intros k c'. by rewrite lookup_empty.
Qed.

Lemma map_button_other s baseline key_name m w m' w' k :
  map_button s baseline key_name m w = Ret m' w' →
  k ≠ key_name →
  m_buttons m' !! k = m_buttons m !! k.
Proof.
  rewrite map_button_eq.
  destruct (wait_for_button _ _ _ _) as [[c|] w1|[] w1|];
    intros [= <- <-] Hk; try done.
  simpl. by rewrite lookup_insert_ne.
Qed.

Lemma map_buttons_other s baseline keys m w m' w' k :
  map_buttons s baseline keys m w = Ret m' w' →
  k ∉ keys →
  m_buttons m' !! k = m_buttons m !! k.
Proof.
  revert m w. induction keys as [|key_name keys IH]; intros m w; simpl.
  { by intros [= <- <-]. }
  intros (m1 & w1 & H1 & Hrest)%bind_Ret_inv Hk.
  apply not_elem_of_cons in Hk as [Hne Hk].
  rewrite (IH _ _ Hrest Hk). by eapply map_button_other.
Qed.

Lemma map_buttons_app s baseline keys keys' m w :
  map_buttons s baseline (keys ++ keys') m w =
  match map_buttons s baseline keys m w with
  | Ret m1 w1 => map_buttons s baseline keys' m1 w1
  | Raise e w1 => Raise e w1
  | Blocked => Blocked
  end.
Proof.
  revert m w. induction keys as [|key_name keys IH]; intros m w; simpl; [done|].
  rewrite !bind_eq. destruct (map_button _ _ _ _ _) as [m1 w1| |]; [|done..].
  apply IH.
Qed.

(** X1.  A button whose capture times out or is cut short by
    [KeyboardInterrupt] leaves the mapping as it was; the loop goes on
    with the buttons after it, and the key stays absent to the end. *)
Lemma failed_button_left_absent s baseline before key_name todo m0 w0 m1 w1 w2 :
  NoDup (before ++ key_name :: todo) →
  m_buttons m0 !! key_name = None →
  map_buttons s baseline before m0 w0 = Ret m1 w1 →
  (wait_for_button s baseline (default_timeout s) w1 = Ret None w2 ∨
   wait_for_button s baseline (default_timeout s) w1 =
     Raise KeyboardInterrupt w2) →
  map_buttons s baseline (before ++ key_name :: todo) m0 w0 =
    map_buttons s baseline todo m1 w2 ∧
  m_buttons m1 !! key_name = None ∧
  ∀ m' w', map_buttons s baseline todo m1 w2 = Ret m' w' →
           m_buttons m' !! key_name = None.
Proof.
  intros Hdup Hfresh Hbefore Hfail.
  apply NoDup_app in Hdup as (_ & Hnot & [Htodo _]%NoDup_cons).
  assert (Hm1 : m_buttons m1 !! key_name = None).
  { rewrite (map_buttons_other _ _ _ _ _ _ _ key_name Hbefore); [done|].
    intros Hin. apply (Hnot _ Hin). by left. }
  split_and!; [|done|].
  - rewrite map_buttons_app, Hbefore. simpl. rewrite bind_eq, map_button_eq.
    by destruct Hfail as [->| ->].
  - intros m' w' Hrest.
    by rewrite (map_buttons_other _ _ _ _ _ _ _ key_name Hrest).
Qed.

(** ** Zero-length reports *)

Lemma blind_mret {A : Type} (a : A) : blind_to_empty (mret a).
Proof. done. Qed.

Lemma blind_raise {A : Type} (e : exn) : blind_to_empty (@raise A e).
Proof. done. Qed.

Lemma blind_time_time : blind_to_empty time_time.
Proof. intros [[|t ck] us sl sv]; done. Qed.

Lemma blind_time_sleep ms : blind_to_empty (time_sleep ms).
Proof. intros [ck us [|[] sl] sv]; done. Qed.

(** [bind] when the first computation's value may change from [a] to
    [f a] and the continuation does not mind. *)
Lemma blind_bind_via {A B : Type} (f : A → A) (m : M A) (k : A → M B) :
  (∀ w, m (empty_as_timeout w) =
        match m w with
        | Ret a w' => Ret (f a) (empty_as_timeout w')
        | Raise e w' => Raise e (empty_as_timeout w')
        | Blocked => Blocked
        end) →
  (∀ a w w', m w = Ret a w' →
             k (f a) (empty_as_timeout w') = result_empty_as_timeout (k a w')) →
  blind_to_empty (m ≫= k).
Proof.
  intros Hm Hk w. rewrite !bind_eq, Hm.
  destruct (m w) as [a w'| |] eqn:Hw; [|done..]. by eapply Hk.
Qed.

Lemma blind_bind {A B : Type} (m : M A) (k : A → M B) :
  blind_to_empty m → (∀ a, blind_to_empty (k a)) → blind_to_empty (m ≫= k).
Proof.
  intros Hm Hk. apply (blind_bind_via id).
  - intros w. rewrite Hm. by destruct (m w).
  - intros a w w' _. apply Hk.
Qed.

Lemma blind_try_except {A : Type} (body handler : M A) :
  blind_to_empty body → blind_to_empty handler →
  blind_to_empty (try_except_KeyboardInterrupt body handler).
Proof.
  intros Hb Hh w. unfold try_except_KeyboardInterrupt. rewrite Hb.
  destruct (body w) as [a w'|[] w'|]; try done. apply Hh.
Qed.

Lemma blind_loop {A : Type} (body : M (option A)) :
  blind_to_empty body → blind_to_empty (loop body).
Proof.
  intros Hb w. unfold loop.
  replace (world_size (empty_as_timeout w)) with (world_size w)
    by (unfold world_size; simpl; by rewrite length_fmap).
  generalize (S (world_size w)). intros n. revert w.
  induction n as [|n IH]; [done|]. change (blind_to_empty (loop_rounds body (S n))).
  simpl. apply blind_bind; [done|]. intros [a|]; [apply blind_mret|exact IH].
Qed.

Lemma read_report_empty_as_timeout s timeout w :
  read_report s timeout (empty_as_timeout w) =
  match read_report s timeout w with
  | Ret r w' => Ret (empty_as_none r) (empty_as_timeout w')
  | Raise e w' => Raise e (empty_as_timeout w')
  | Blocked => Blocked
  end.
Proof.
  destruct w as [ck [|u us] sl sv]; [done|].
  by destruct s, u as [[|b d]| | |].
Qed.

Lemma blind_sample_reports s n reports :
  blind_to_empty (sample_reports s n reports).
Proof.
  revert reports. induction n as [|n IH]; intros reports; [apply blind_mret|].
  simpl. apply (blind_bind_via empty_as_none).
  { apply read_report_empty_as_timeout. }
  intros r w w' _.
  assert (Hk : ∀ reports', blind_to_empty (time_sleep 50;; sample_reports s n reports')).
  { intros reports'. apply blind_bind; [apply blind_time_sleep|]. intros _. apply IH. }
  destruct r as [[|b d]|]; apply Hk.
Qed.

Lemma blind_get_baseline s set_iter : blind_to_empty (get_baseline s set_iter).
Proof.
  unfold get_baseline. apply blind_bind.
  { destruct s; [apply blind_time_sleep|apply blind_mret]. }
  intros _. apply blind_bind; [apply blind_sample_reports|].
  intros [|r rs]; [apply blind_raise|].
  destruct (most_common set_iter (r :: rs)); [apply blind_mret|apply blind_raise].
Qed.

Lemma blind_sleep_continue {A : Type} :
  blind_to_empty (time_sleep 10;; mret (@None A)).
Proof. apply blind_bind; [apply blind_time_sleep|]. intros _. apply blind_mret. Qed.

Lemma blind_wait_for_release s baseline :
  baseline ≠ [] → blind_to_empty (wait_for_release s baseline).
Proof.
  intros Hne. apply blind_loop, (blind_bind_via empty_as_none).
  { apply read_report_empty_as_timeout. }
  intros r w w' _.
  assert (Hk : ∀ r, blind_to_empty
            (if decide (r = Some baseline) then mret (Some tt)
             else time_sleep 10;; mret None)).
  { intros r'. destruct (decide _); [apply blind_mret|apply blind_sleep_continue]. }
  destruct r as [[|b d]|]; cbn beta iota delta [empty_as_none]; [|apply Hk..].
  rewrite (decide_False (P := None = Some baseline)) by done.
  rewrite (decide_False (P := Some [] = Some baseline)) by congruence.
  apply blind_sleep_continue.
Qed.

Lemma blind_press_iteration s baseline start_time timeout :
  baseline ≠ [] →
  blind_to_empty (press_iteration s baseline start_time timeout).
Proof.
  intros Hne. apply blind_bind; [apply blind_time_time|].
  intros now. destruct (decide _); [|apply blind_mret].
  apply (blind_bind_via empty_as_none).
  { apply read_report_empty_as_timeout. }
  intros r w w' _.
  destruct r as [[|b d]|]; simpl; try apply blind_sleep_continue.
  destruct (bool_decide _); [|apply blind_sleep_continue].
  destruct (detect_changes s baseline (b :: d)); [apply blind_sleep_continue|].
  apply blind_bind; [by apply blind_wait_for_release|].
  intros _. apply blind_mret.
Qed.

Lemma blind_wait_for_button s baseline timeout :
  baseline ≠ [] → blind_to_empty (wait_for_button s baseline timeout).
Proof.
  intros Hne. apply blind_bind; [apply blind_time_time|].
  intros start. by apply blind_loop, blind_press_iteration.
Qed.

Lemma blind_map_buttons s baseline keys m :
  baseline ≠ [] → blind_to_empty (map_buttons s baseline keys m).
Proof.
  intros Hne. revert m. induction keys as [|key_name keys IH]; intros m;
    [apply blind_mret|].
  simpl. apply blind_bind; [|done].
  apply blind_try_except; [|apply blind_mret].
  apply blind_bind; [by apply blind_wait_for_button|].
  intros [c|]; apply blind_mret.
Qed.

Lemma blind_map_controller s set_iter :
  set_iteration set_iter → blind_to_empty (map_controller s set_iter).
Proof.
  intros Hset. apply (blind_bind_via id).
  - intros w. rewrite blind_get_baseline. by destruct (get_baseline s set_iter w).
  - intros baseline w w' Hb%get_baseline_nonempty; [|done].
    by apply blind_map_buttons.
Qed.

(** C10.  Two oracles that differ only in that one has a zero-length
    report where the other has a timeout, at any positions, give the
    same result: in baseline sampling, in [wait_for_button] (for a
    baseline that [get_baseline] can return, which is never empty) and
    in the whole of [map_controller]; and a zero-length report never
    confirms a press. *)
Theorem zero_length_read_is_no_data s set_iter w1 w2 :
  set_iteration set_iter →
  empty_as_timeout w1 = empty_as_timeout w2 →
  result_empty_as_timeout (get_baseline s set_iter w1) =
    result_empty_as_timeout (get_baseline s set_iter w2) ∧
  (∀ baseline timeout, baseline ≠ [] →
     result_empty_as_timeout (wait_for_button s baseline timeout w1) =
       result_empty_as_timeout (wait_for_button s baseline timeout w2)) ∧
  result_empty_as_timeout (map_controller s set_iter w1) =
    result_empty_as_timeout (map_controller s set_iter w2) ∧
  (∀ baseline, confirms s baseline (UsbData []) = false) ∧
  collect [UsbData []] = collect [UsbTimeout].
Proof.
  intros Hset Hw. split_and!; [| | |done..].
  - by rewrite <- !blind_get_baseline, Hw.
  - intros baseline timeout Hne. by rewrite <- !blind_wait_for_button, Hw.
  - by rewrite <- !blind_map_controller, Hw.
Qed.

(** * The claims at concrete inputs *)

(** C3.  In the stand-alone script a Ctrl+C that arrives while
    [read_report] is inside [dev.read] is caught by its bare [except:]
    and counts as a read without data: the wait goes on and the button,
    pressed afterwards, is recorded.  With [snes-mapper.py] the same
    reads skip the button. *)
Theorem standalone_read_swallows_interrupt :
  (∃ m w',
     map_controller Standalone first_occurrences interrupted_session = Ret m w' ∧
     m_buttons m !! "up" =
       Some (Capture held [Change 0 xff x7f None])) ∧
  map_button Mapper resting "dpad_up" (Mapping resting 2 ∅)
    (World [0; 1; 2] [UsbSigInt; UsbData held; UsbData resting] [Slept] []) =
  Ret (Mapping resting 2 ∅)
    (World [2] [UsbData held; UsbData resting] [Slept] []).
Proof.
  split; [|reflexivity].
  eexists _, _. split; [vm_compute; reflexivity|reflexivity].
Qed.

(** C4, as stated, fails: two samples tied at one occurrence each; an
    iteration order of the set that yields the later sample first makes
    [get_baseline]'s selection return it, not the first-seen one, and
    another order returns the other value for the same samples. *)
Lemma tie_not_first_seen :
  set_iteration last_to_first ∧
  set_iteration first_occurrences ∧
  count [x01] [[x01]; [x02]] = count [x02] [[x01]; [x02]] ∧
  first_seen_mode [[x01]; [x02]] = Some [x01] ∧
  most_common last_to_first [[x01]; [x02]] = Some [x02] ∧
  most_common first_occurrences [[x01]; [x02]] = Some [x01].
Proof.
  split_and!; [apply set_iteration_last_to_first
              |apply set_iteration_first_occurrences
              |reflexivity..].
Qed.

(** C5, as stated, fails: a one-byte report against a two-byte
    baseline is diffed over the first byte and [wait_for_button]
    returns the capture. *)
Lemma size_mismatch_is_diffed :
  length resting ≠ length [x7f] ∧
  detect_changes Mapper resting [x7f] = [Change 0 xff x7f (Some 128%N)] ∧
  wait_for_button Mapper resting 30000
    (World [0; 1] [UsbData [x7f]; UsbData resting] [] []) =
  Ret (Some (Capture [x7f] [Change 0 xff x7f (Some 128%N)]))
      (World [] [] [] []).
Proof. split_and!; [by intros [=]|reflexivity..]. Qed.

(** C1 at three samples, two of them the resting report. *)
Lemma most_common_majority_witness :
  (length [resting; held; resting] < 2 * count resting [resting; held; resting])%nat ∧
  most_common first_occurrences [held; resting; resting] = Some resting.
Proof.
  split; [simpl; lia|].
  apply (most_common_majority first_occurrences
           set_iteration_first_occurrences
           [resting; held; resting] [held; resting; resting] resting).
  - simpl. lia.
  - apply perm_swap.
Defined.

(** C2 at the resting report and the report with one button held. *)
Lemma replay_detect_changes_witness :
  length resting = length held ∧
  replay_changes (detect_changes Mapper resting held) resting = held.
Proof.
  split; [reflexivity|].
  apply (replay_detect_changes Mapper resting held). reflexivity.
Defined.

(** C8 at the same two reports. *)
Lemma detect_changes_empty_iff_witness :
  (detect_changes Standalone resting held = [] ↔ resting = held) ∧
  detect_changes Standalone resting resting = [].
Proof.
  apply (detect_changes_empty_iff Standalone resting held). reflexivity.
Defined.

(** C4 (as amended) at the two tied samples, with the set iterated from
    the last sample to the first. *)
Lemma most_common_first_in_set_order_witness :
  ∃ v pre post,
    most_common last_to_first [[x01]; [x02]] = Some v ∧
    last_to_first [[x01]; [x02]] = pre ++ v :: post ∧
    v ∈ [[x01]; [x02]] ∧
    (∀ x, count x [[x01]; [x02]] ≤ count v [[x01]; [x02]])%nat ∧
    (∀ x, x ∈ pre → count x [[x01]; [x02]] < count v [[x01]; [x02]])%nat.
Proof.
  apply (most_common_first_in_set_order last_to_first
           set_iteration_last_to_first [[x01]; [x02]]).
  intros [=].
Defined.

(** C6 at a wait whose press is held for two reads before the release,
    and at a release loop that is never shown the baseline. *)
Lemma release_wait_ends_only_at_baseline_witness :
  (∃ pre mid,
     [UsbTimeout; UsbData held; UsbData held; UsbData resting] =
       pre ++ UsbData held :: mid ++ UsbData resting :: [] ∧
     Forall (λ u, confirms Mapper resting u = false) pre ∧
     confirms Mapper resting (UsbData held) = true ∧
     (UsbData resting ∉ mid)) ∧
  wait_for_release Mapper resting
    (World [0] [UsbData held; UsbTimeout; UsbData []] [Slept; Slept; Slept] [])
    ≠ Ret tt (World [0] [] [] []).
Proof.
  pose proof (release_wait_ends_only_at_baseline Mapper resting 30000
                [0; 1; 2] [UsbTimeout; UsbData held; UsbData held; UsbData resting]
                [Slept; Slept] []) as (_ & Hsome & _ & _).
  pose proof (release_wait_ends_only_at_baseline Mapper resting 30000
                [0] [UsbData held; UsbTimeout; UsbData []]
                [Slept; Slept; Slept] []) as (_ & _ & _ & Hnever).
  split.
  - apply (Hsome (Capture held [Change 0 xff x7f (Some 128%N)])
                 (World [] [] [] [])).
    reflexivity.
  - apply Hnever. intros Hin.
    repeat (apply elem_of_cons in Hin as [[=]|Hin]).
    by apply elem_of_nil in Hin.
Defined.

(** C7 at twenty timeouts. *)
Lemma no_signal_iff_no_data_witness :
  get_baseline Mapper first_occurrences (silent_session Mapper) =
    Raise (SystemExit 1) (World [] [] [] []) ∧
  map_controller Mapper first_occurrences (silent_session Mapper) =
    Raise (SystemExit 1) (World [] [] [] []) ∧
  main Mapper first_occurrences (silent_session Mapper) =
    Raise (SystemExit 1) (World [] [] [] []).
Proof.
  apply (no_signal_iff_no_data Mapper first_occurrences []
           (replicate 20 UsbTimeout) [] [] []
           set_iteration_first_occurrences).
  - reflexivity.
  - intros _ Hin. apply elem_of_replicate in Hin as [[=] _].
  - apply Forall_replicate. reflexivity.
Defined.

(** C9 at a session in which one button is captured. *)
Lemma recorded_captures_ok_witness :
  ∃ m w',
    map_controller Mapper first_occurrences one_press_session = Ret m w' ∧
    m_buttons m !! "dpad_up" =
      Some (Capture held [Change 0 xff x7f (Some 128%N)]) ∧
    ∀ key_name c, m_buttons m !! key_name = Some c →
      cap_changes c ≠ [] ∧
      StronglySorted lt (ch_byte <$> cap_changes c) ∧
      ∀ ch, ch ∈ cap_changes c →
            m_baseline m !! ch_byte ch = Some (ch_from ch).
Proof.
  eexists _, _. split_and!.
  - vm_compute. reflexivity.
  - reflexivity.
  - eapply (recorded_captures_ok Mapper first_occurrences one_press_session).
    vm_compute. reflexivity.
Defined.

(** C10 at a baseline sampling whose first read is a zero-length report
    in one oracle and a timeout in the other. *)
Lemma zero_length_read_is_no_data_witness :
  result_empty_as_timeout
    (get_baseline Standalone first_occurrences
       (World [] (UsbData [] :: replicate 19 (UsbData resting))
          (replicate 20 Slept) [])) =
  result_empty_as_timeout
    (get_baseline Standalone first_occurrences
       (World [] (UsbTimeout :: replicate 19 (UsbData resting))
          (replicate 20 Slept) [])).
Proof.
  apply (zero_length_read_is_no_data Standalone first_occurrences
           (World [] (UsbData [] :: replicate 19 (UsbData resting))
              (replicate 20 Slept) [])
           (World [] (UsbTimeout :: replicate 19 (UsbData resting))
              (replicate 20 Slept) [])
           set_iteration_first_occurrences).
  reflexivity.
Defined.

(** * Further properties

    ** Exceptions and the files written *)

Lemma tame_weaken (E E' : exn → Prop) {A : Type} (m : M A) :
  (∀ e, E e → E' e) → tame E m → tame E' m.
Proof.
  intros HE Hm w. specialize (Hm w). destruct (m w); [done| |done].
  destruct Hm. split; auto.
Qed.

Lemma tame_mret (E : exn → Prop) {A : Type} (a : A) : tame E (mret a).
Proof. by intros w. Qed.

Lemma tame_raise (E : exn → Prop) {A : Type} (e : exn) : E e → tame E (@raise A e).
Proof. by intros He w. Qed.

Lemma tame_bind (E : exn → Prop) {A B : Type} (m : M A) (k : A → M B) :
  tame E m → (∀ a, tame E (k a)) → tame E (m ≫= k).
Proof.
  intros Hm Hk w. rewrite bind_eq. specialize (Hm w).
  destruct (m w) as [a w1|e w1|]; [|done..].
  specialize (Hk a w1). destruct (k a w1) as [b w2|e w2|]; [congruence| |done].
  destruct Hk. split; congruence.
Qed.


Lemma tame_time_sleep (E : exn → Prop) ms :
  E KeyboardInterrupt → tame E (time_sleep ms).
Proof. by intros He [ck us [|[] sl] sv]. Qed.

Lemma tame_read_report (E : exn → Prop) s timeout :
  E KeyboardInterrupt → tame E (read_report s timeout).
Proof. intros He [ck [|u us] sl sv]; [done|]. by destruct s, u. Qed.







Lemma tame_sample_reports s n reports :
  tame (λ e, e = KeyboardInterrupt) (sample_reports s n reports).
Proof.
  revert reports. induction n as [|n IH]; intros reports; [apply tame_mret|].
  simpl. apply tame_bind; [by apply tame_read_report|]. intros r.
  apply tame_bind; [by apply tame_time_sleep|]. intros _. apply IH.
Qed.

Lemma tame_get_baseline s set_iter :
  tame (λ e, e = KeyboardInterrupt ∨ e = SystemExit 1 ∨ e = ValueError)
    (get_baseline s set_iter).
Proof.
  apply tame_bind.
  { destruct s; [apply tame_time_sleep; by left|apply tame_mret]. }
  intros _. apply tame_bind.
  { eapply tame_weaken; [|apply tame_sample_reports]. intros e ->. by left. }
  intros [|r rs]; [apply tame_raise; right; by left|].
  destruct (most_common _ _); [apply tame_mret|apply tame_raise; by right; right].
Qed.

Lemma sample_reports_Ret s n acc ck us sl sv reports w' :
  sample_reports s n acc (World ck us sl sv) = Ret reports w' →
  ∃ taken, us = taken ++ usb w' ∧ length taken = n ∧
           reports = acc ++ collect taken ∧
           sl = replicate n Slept ++ sleeps w' ∧
           clock w' = ck ∧ saved w' = sv.
Proof.
  revert acc us sl. induction n as [|n IH]; intros acc us sl; simpl.
  { intros [= <- <-]. exists []. by rewrite app_nil_r. }
  rewrite bind_eq. destruct us as [|u us]; [done|].
  destruct (read_report_cases s 50 ck u us sl sv) as [->|(_ & _ & ->)];
    [|done].
  rewrite bind_eq. destruct sl as [|[] sl]; [done| |done]. simpl.
  intros (taken & -> & <- & -> & -> & Hck & Hsv)%IH.
  exists (u :: taken). split_and!; [done..| |done|done|done].
  unfold collect. simpl. by destruct u as [[|b d]| | |]; simpl;
    rewrite <- ?app_assoc.
Qed.

Lemma get_baseline_inv s set_iter ck us sl sv (r : result report) :
  get_baseline s set_iter (World ck us sl sv) = r →
  match r with
  | Ret baseline w' =>
      ∃ taken, us = taken ++ usb w' ∧ length taken = 20%nat ∧
               most_common set_iter (collect taken) = Some baseline ∧
               collect taken ≠ [] ∧
               sl = replicate (pauses s) Slept ++ sleeps w' ∧
               clock w' = ck ∧ saved w' = sv
  | Raise (SystemExit code) w' =>
      code = 1 ∧
      ∃ taken, us = taken ++ usb w' ∧ length taken = 20%nat ∧
               collect taken = [] ∧
               sl = replicate (pauses s) Slept ++ sleeps w' ∧
               clock w' = ck ∧ saved w' = sv
  | Raise ValueError w' =>
      ∃ taken, collect taken ≠ [] ∧ most_common set_iter (collect taken) = None
  | _ => True
  end.
Proof.
  intros <-. unfold get_baseline. rewrite bind_eq.
  assert (Hgo : ∀ sl0, sl = replicate (pauses s - 20) Slept ++ sl0 →
    match (sample_reports s 20 [] ≫= λ reports,
             match reports with
             | [] => sys_exit 1
             | _ :: _ =>
                 match most_common set_iter reports with
                 | Some baseline => mret baseline
                 | None => raise ValueError
                 end
             end) (World ck us sl0 sv) with
    | Ret baseline w' =>
        ∃ taken, us = taken ++ usb w' ∧ length taken = 20%nat ∧
                 most_common set_iter (collect taken) = Some baseline ∧
                 collect taken ≠ [] ∧
                 sl = replicate (pauses s) Slept ++ sleeps w' ∧
                 clock w' = ck ∧ saved w' = sv
    | Raise (SystemExit code) w' =>
        code = 1 ∧
        ∃ taken, us = taken ++ usb w' ∧ length taken = 20%nat ∧
                 collect taken = [] ∧
                 sl = replicate (pauses s) Slept ++ sleeps w' ∧
                 clock w' = ck ∧ saved w' = sv
    | Raise ValueError w' =>
        ∃ taken, collect taken ≠ [] ∧ most_common set_iter (collect taken) = None
    | _ => True
    end).
  { intros sl0 Hsl. rewrite bind_eq.
    destruct (sample_reports s 20 [] _) as [reports w1|e w1|] eqn:Hs.
    - apply sample_reports_Ret in Hs
        as (taken & -> & Hlen & -> & -> & Hck & Hsv).
      assert (Hsl' : sl = replicate (pauses s) Slept ++ sleeps w1).
      { rewrite Hsl, app_assoc, <- replicate_add. by destruct s. }
      cbn [app]. destruct (collect taken) as [|r rs] eqn:Hc.
      + split; [done|]. exists taken. by rewrite Hc.
      + destruct (most_common set_iter (r :: rs)) as [b|] eqn:Hm.
        * exists taken. by rewrite Hc.
        * exists taken. by rewrite Hc.
    - pose proof (tame_sample_reports s 20 [] (World ck us sl0 sv)) as Ht.
      rewrite Hs in Ht. by destruct Ht as [_ ->].
    - done. }
  destruct s.
  - destruct sl as [|[] sl0]; [done| |done]. by apply Hgo.
  - by apply Hgo.
Qed.

Lemma get_baseline_no_ValueError s set_iter w w' :
  set_iteration set_iter →
  get_baseline s set_iter w ≠ Raise ValueError w'.
Proof.
  intros Hset Hr. destruct w as [ck us sl sv].
  apply get_baseline_inv in Hr as (taken & Hne & Hnone).
  destruct (most_common_spec set_iter Hset (collect taken) Hne)
    as (v & pre & post & Hv & _). congruence.
Qed.


(** ** Runs of [get_baseline], [wait_for_button] and [map_controller] *)

(** X6.  When [get_baseline] returns it has taken exactly twenty reads
    and has not looked at the clock, and the baseline is one of the
    reports read that no other report outnumbers.  It raises nothing
    but [KeyboardInterrupt] and [SystemExit(1)], the latter after
    twenty reads without data. *)
Theorem get_baseline_reads_twenty s set_iter ck us sl sv :
  set_iteration set_iter →
  match get_baseline s set_iter (World ck us sl sv) with
  | Ret baseline w' =>
      ∃ taken, us = taken ++ usb w' ∧ length taken = 20%nat ∧
               baseline ∈ collect taken ∧
               (∀ r, count r (collect taken) ≤ count baseline (collect taken))%nat ∧
               clock w' = ck
  | Raise e w' =>
      e = KeyboardInterrupt ∨
      (e = SystemExit 1 ∧
       ∃ taken, us = taken ++ usb w' ∧ length taken = 20%nat ∧
                Forall (λ u, yields_data u = false) taken ∧
                clock w' = ck)
  | Blocked => True
  end.
Proof.
  intros Hset.
  pose proof (get_baseline_inv s set_iter ck us sl sv _ eq_refl) as Hinv.
  pose proof (tame_get_baseline s set_iter (World ck us sl sv)) as Ht.
  pose proof (get_baseline_no_ValueError s set_iter (World ck us sl sv)) as Hv.
  destruct (get_baseline s set_iter _) as [baseline w'|e w'|]; [| |done].
  - destruct Hinv as (taken & Hus & Hlen & Hsel & Hne & _ & Hck & _).
    destruct (most_common_spec set_iter Hset (collect taken) Hne)
      as (v & pre & post & Hv' & _ & Hin & Hmax & _).
    exists taken. by simplify_eq.
  - destruct Ht as [_ [->|[->| ->]]]; [by left| |by destruct (Hv w' Hset)].
    right. destruct Hinv as (_ & taken & Hus & Hlen & Hc & _ & Hck & _).
    split; [done|]. exists taken. by rewrite <- collect_nil_iff.
Qed.

(** The release loop, run to its end. *)
Lemma wait_for_release_run s baseline mid ck rest sl sv :
  UsbData baseline ∉ mid →
  (s = Mapper → UsbSigInt ∉ mid) →
  wait_for_release s baseline
    (World ck (mid ++ UsbData baseline :: rest)
       (replicate (length mid) Slept ++ sl) sv) =
  Ret tt (World ck rest sl sv).
Proof.
  intros Hmid Hsig. induction mid as [|u mid IH]; simpl;
    rewrite wait_for_release_unfold.
  - destruct (read_report_cases s 50 ck (UsbData baseline) rest sl sv)
      as [->|(_ & [=] & _)]. simpl. by rewrite decide_True.
  - destruct (read_report_cases s 50 ck u (mid ++ UsbData baseline :: rest)
                (Slept :: replicate (length mid) Slept ++ sl) sv)
      as [->|(Hs & -> & _)].
    2:{ destruct (Hsig Hs). by left. }
    rewrite decide_False.
    + simpl. apply IH.
      * intros Hin. apply Hmid. by right.
      * intros Hs Hin. apply (Hsig Hs). by right.
    + intros Hu. apply Hmid. destruct u; simplify_eq/=. by left.
Qed.

Lemma press_loop_idle_run s baseline start timeout nows ck pre us sl sv :
  Forall (λ now, now - start < timeout) nows →
  length pre = length nows →
  Forall (λ u, confirms s baseline u = false) pre →
  (s = Mapper → UsbSigInt ∉ pre) →
  loop (press_iteration s baseline start timeout)
    (World (nows ++ ck) (pre ++ us) (replicate (length nows) Slept ++ sl) sv) =
  loop (press_iteration s baseline start timeout) (World ck us sl sv).
Proof.
  intros Hnows. revert pre. induction Hnows as [|now nows Hnow _ IH];
    intros [|u pre] Hlen Hpre Hsig; simplify_eq/=; [done|].
  apply Forall_cons in Hpre as [Hu Hpre].
  rewrite press_loop_unfold, press_iteration_idle; [|done..|].
  - apply IH; [done..|]. intros Hs Hin. apply (Hsig Hs). by right.
  - intros [Hs ->]. apply (Hsig Hs). by left.
Qed.


(** X5.  A wait that captures: after idle rounds, the first confirming
    report is returned with its changes, whatever is read between it
    and the first report equal to the baseline, and however late the
    clock is by then. *)
Theorem wait_for_button_captures s baseline timeout start nows now ck
    pre r mid rest sl sv :
  Forall (λ now, now - start < timeout) nows →
  now - start < timeout →
  length pre = length nows →
  Forall (λ u, confirms s baseline u = false) pre →
  (s = Mapper → UsbSigInt ∉ pre ++ mid) →
  confirms s baseline (UsbData r) = true →
  UsbData baseline ∉ mid →
  wait_for_button s baseline timeout
    (World (start :: nows ++ now :: ck)
       (pre ++ UsbData r :: mid ++ UsbData baseline :: rest)
       (replicate (length nows + length mid) Slept ++ sl) sv) =
  Ret (Some (Capture r (detect_changes s baseline r))) (World ck rest sl sv).
Proof.
  intros Hnows Hnow Hlen Hpre Hsig Hr Hmid.
  rewrite wait_for_button_cons, replicate_add, <- app_assoc.
  rewrite press_loop_idle_run; [|done..|].
  2:{ intros Hs Hin. apply (Hsig Hs), elem_of_app. by left. }
  rewrite press_loop_unfold.
  destruct (press_iteration_confirm s baseline start timeout now ck
              (UsbData r) (mid ++ UsbData baseline :: rest)
              (replicate (length mid) Slept ++ sl) sv)
    as (r' & [= <-] & ->); [done..|].
  rewrite wait_for_release_run; [done..|].
  intros Hs Hin. apply (Hsig Hs), elem_of_app. by right.
Qed.

(** X2.  A captured button is recorded under its key, the loop goes on
    with the buttons after it, and they leave the entry alone. *)
Theorem captured_button_recorded s baseline before key_name todo m0 w0 m1 w1 c w2 :
  NoDup (before ++ key_name :: todo) →
  map_buttons s baseline before m0 w0 = Ret m1 w1 →
  wait_for_button s baseline (default_timeout s) w1 = Ret (Some c) w2 →
  map_buttons s baseline (before ++ key_name :: todo) m0 w0 =
    map_buttons s baseline todo (set_button key_name c m1) w2 ∧
  ∀ m' w', map_buttons s baseline todo (set_button key_name c m1) w2 = Ret m' w' →
           m_buttons m' !! key_name = Some c.
Proof.
  intros Hdup Hbefore Hcap.
  apply NoDup_app in Hdup as (_ & _ & [Htodo _]%NoDup_cons). split.
  - rewrite map_buttons_app, Hbefore. simpl.
    by rewrite bind_eq, map_button_eq, Hcap.
  - intros m' w' Hrest.
    rewrite (map_buttons_other _ _ _ _ _ _ _ key_name Hrest Htodo).
    simpl. apply lookup_insert_eq.
Qed.

Lemma map_buttons_entries s baseline keys m w m' w' :
  map_buttons s baseline keys m w = Ret m' w' →
  m_baseline m' = m_baseline m ∧
  m_report_size m' = m_report_size m ∧
  ∀ k c, m_buttons m' !! k = Some c →
    m_buttons m !! k = Some c ∨
    (k ∈ keys ∧ confirms s baseline (UsbData (cap_report c)) = true ∧
     cap_changes c = detect_changes s baseline (cap_report c)).
Proof.
  revert m w. induction keys as [|key_name keys IH]; intros m w; simpl.
  { intros [= <- <-]. split_and!; [done..|]. intros k c ?. by left. }
  intros (m1 & w1 & H1 & Hrest)%bind_Ret_inv.
  apply IH in Hrest as (Hb & Hsz & Hent).
  rewrite map_button_eq in H1. destruct w as [ck us sl sv].
  destruct (wait_for_button _ _ _ _) as [[c1|] w2|[] w2|] eqn:Hw;
    simplify_eq/=.
  - split_and!; [done..|]. intros k c Hk.
    destruct (Hent k c Hk) as [Hm1|(Hin & Hc)].
    + destruct (decide (key_name = k)) as [->|Hne].
      * rewrite lookup_insert_eq in Hm1. simplify_eq. right.
        apply wait_for_button_Some in Hw
          as (pre & mid & _ & _ & Hc & Hch & _).
        split_and!; [by left|done..].
      * rewrite lookup_insert_ne in Hm1 by done. by left.
    + right. split; [by right|done].
  - split_and!; [done..|]. intros k c Hk.
    destruct (Hent k c Hk) as [?|(Hin & Hc)]; [by left|].
    right. split; [by right|done].
  - split_and!; [done..|]. intros k c Hk.
    destruct (Hent k c Hk) as [?|(Hin & Hc)]; [by left|].
    right. split; [by right|done].
Qed.

(** X8.  What a returned mapping holds: a non-empty baseline, its
    length as the report size, and entries only under keys of
    [buttons_to_map]; each entry has a non-empty report that differs
    from the baseline and the changes of that report against the
    baseline. *)
Theorem mapping_shape s set_iter w m w' :
  set_iteration set_iter →
  map_controller s set_iter w = Ret m w' →
  m_baseline m ≠ [] ∧
  m_report_size m = length (m_baseline m) ∧
  ∀ key_name c, m_buttons m !! key_name = Some c →
    key_name ∈ buttons_to_map s ∧
    cap_report c ≠ [] ∧
    cap_report c ≠ m_baseline m ∧
    cap_changes c = detect_changes s (m_baseline m) (cap_report c).
Proof.
  intros Hset. unfold map_controller.
  intros (baseline & w1 & Hb & Hrun)%bind_Ret_inv.
  apply get_baseline_nonempty in Hb; [|done].
  apply map_buttons_entries in Hrun as (Hbase & Hsz & Hent). simpl in *.
  rewrite Hbase, Hsz. split_and!; [done..|].
  intros k c Hk. destruct (Hent k c Hk) as [Hn|(Hin & Hc & Hch)].
  { by rewrite lookup_empty in Hn. }
  split; [done|]. simpl in Hc.
  apply andb_true_iff in Hc as [[Hr Hne]%andb_true_iff _].
  split_and!; [by destruct (cap_report c)|by apply bool_decide_eq_true in Hne|done].
Qed.

(** ** More on the change detector *)

Lemma changes_from_swap s i (bs rs : report) :
  omap (keep_change s) (enumerate_from i (zip rs bs)) =
  swap_change <$> omap (keep_change s) (enumerate_from i (zip bs rs)).
Proof.
  revert i rs. induction bs as [|a bs IH]; intros i [|b rs]; [done..|].
  rewrite !omap_enumerate_cons, fmap_app, IH. f_equal.
  destruct (decide (a ≠ b)) as [Hne|Heq].
  - rewrite decide_True by congruence. simpl. unfold swap_change, mk_change.
    simpl. destruct s; [|done]. by rewrite N.lxor_comm.
  - by rewrite decide_False by (intros ?; apply Heq; congruence).
Qed.

(** X10.  Diffing the other way round gives the same positions, with
    old and new value exchanged and the same ['diff'] mask. *)
Theorem detect_changes_swap s (b r : report) :
  detect_changes s r b = swap_change <$> detect_changes s b r.
Proof. apply changes_from_swap. Qed.

Lemma to_N_inj (a b : byte) : Byte.to_N a = Byte.to_N b → a = b.
Proof.
  intros H. apply (f_equal Byte.of_N) in H. rewrite !Byte.of_to_N in H.
  congruence.
Qed.

(** X9.  The fields of a change: the old value is the baseline's byte
    and the new value the report's byte at the change's position, the
    two differ, and in [snes-mapper.py] the ['diff'] mask is non-zero
    and turns the old value into the new one. *)
Theorem change_fields s (b r : report) (c : change) :
  c ∈ detect_changes s b r →
  b !! ch_byte c = Some (ch_from c) ∧
  r !! ch_byte c = Some (ch_to c) ∧
  ch_from c ≠ ch_to c ∧
  match s with
  | Mapper =>
      ∃ d, ch_diff c = Some d ∧ d ≠ 0%N ∧
           N.lxor (Byte.to_N (ch_from c)) d = Byte.to_N (ch_to c)
  | Standalone => ch_diff c = None
  end.
Proof.
  intros (i & x & y & Hx & Hy & Hne & ->)%elem_of_changes_from.
  simpl. split_and!; [done..|]. destruct s; [|done].
  eexists. split; [done|]. split.
  - intros Hz%N.lxor_eq. apply Hne. symmetry. by apply to_N_inj.
  - by rewrite (N.lxor_comm (Byte.to_N y)), <- N.lxor_assoc, N.lxor_nilpotent,
      N.lxor_0_l.
Qed.

(** ** Ctrl+C during a read in the stand-alone script *)

Lemma deaf_mret {A : Type} (a : A) : deaf_to_read_sigint (mret a).
Proof. done. Qed.

Lemma deaf_raise {A : Type} (e : exn) : deaf_to_read_sigint (@raise A e).
Proof. done. Qed.

Lemma deaf_time_time : deaf_to_read_sigint time_time.
Proof. intros [[|t ck] us sl sv]; done. Qed.

Lemma deaf_time_sleep ms : deaf_to_read_sigint (time_sleep ms).
Proof. intros [ck us [|[] sl] sv]; done. Qed.

Lemma deaf_write_config m : deaf_to_read_sigint (write_config m).
Proof. done. Qed.

Lemma deaf_read_report timeout :
  deaf_to_read_sigint (read_report Standalone timeout).
Proof. intros [ck [|[d| | |] us] sl sv]; done. Qed.

Lemma deaf_bind {A B : Type} (m : M A) (k : A → M B) :
  deaf_to_read_sigint m → (∀ a, deaf_to_read_sigint (k a)) →
  deaf_to_read_sigint (m ≫= k).
Proof.
  intros Hm Hk w. rewrite !bind_eq, Hm.
  destruct (m w) as [a w'| |]; [|done..]. apply Hk.
Qed.

Lemma deaf_try_except {A : Type} (body handler : M A) :
  deaf_to_read_sigint body → deaf_to_read_sigint handler →
  deaf_to_read_sigint (try_except_KeyboardInterrupt body handler).
Proof.
  intros Hb Hh w. unfold try_except_KeyboardInterrupt. rewrite Hb.
  destruct (body w) as [a w'|[] w'|]; try done. apply Hh.
Qed.

Lemma deaf_loop {A : Type} (body : M (option A)) :
  deaf_to_read_sigint body → deaf_to_read_sigint (loop body).
Proof.
  intros Hb w. unfold loop.
  replace (world_size (sigint_as_timeout w)) with (world_size w)
    by (unfold world_size; simpl; by rewrite length_fmap).
  generalize (S (world_size w)). intros n. revert w.
  induction n as [|n IH]; [done|].
  change (deaf_to_read_sigint (loop_rounds body (S n))).
  simpl. apply deaf_bind; [done|]. intros [a|]; [apply deaf_mret|exact IH].
Qed.

Lemma deaf_sample_reports n reports :
  deaf_to_read_sigint (sample_reports Standalone n reports).
Proof.
  revert reports. induction n as [|n IH]; intros reports; [apply deaf_mret|].
  simpl. apply deaf_bind; [apply deaf_read_report|]. intros r.
  apply deaf_bind; [apply deaf_time_sleep|]. intros _. apply IH.
Qed.

Lemma deaf_get_baseline set_iter :
  deaf_to_read_sigint (get_baseline Standalone set_iter).
Proof.
  unfold get_baseline. apply deaf_bind; [apply deaf_mret|].
  intros _. apply deaf_bind; [apply deaf_sample_reports|].
  intros [|r rs]; [apply deaf_raise|].
  destruct (most_common set_iter (r :: rs)); [apply deaf_mret|apply deaf_raise].
Qed.

Lemma deaf_sleep_continue {A : Type} :
  deaf_to_read_sigint (time_sleep 10;; mret (@None A)).
Proof. apply deaf_bind; [apply deaf_time_sleep|]. intros _. apply deaf_mret. Qed.

Lemma deaf_wait_for_release baseline :
  deaf_to_read_sigint (wait_for_release Standalone baseline).
Proof.
  apply deaf_loop, deaf_bind; [apply deaf_read_report|].
  intros r. destruct (decide _); [apply deaf_mret|apply deaf_sleep_continue].
Qed.

Lemma deaf_wait_for_button baseline timeout :
  deaf_to_read_sigint (wait_for_button Standalone baseline timeout).
Proof.
  apply deaf_bind; [apply deaf_time_time|]. intros start.
  apply deaf_loop, deaf_bind; [apply deaf_time_time|]. intros now.
  destruct (decide _); [|apply deaf_mret].
  apply deaf_bind; [apply deaf_read_report|].
  intros [r|]; [|apply deaf_sleep_continue].
  destruct (_ && _); [|apply deaf_sleep_continue].
  destruct (detect_changes Standalone baseline r); [apply deaf_sleep_continue|].
  apply deaf_bind; [apply deaf_wait_for_release|]. intros _. apply deaf_mret.
Qed.

Lemma deaf_map_buttons baseline keys m :
  deaf_to_read_sigint (map_buttons Standalone baseline keys m).
Proof.
  revert m. induction keys as [|key_name keys IH]; intros m; [apply deaf_mret|].
  simpl. apply deaf_bind; [|done].
  apply deaf_try_except; [|apply deaf_mret].
  apply deaf_bind; [apply deaf_wait_for_button|].
  intros [c|]; apply deaf_mret.
Qed.

Lemma deaf_map_controller set_iter :
  deaf_to_read_sigint (map_controller Standalone set_iter).
Proof.
  apply deaf_bind; [apply deaf_get_baseline|].
  intros baseline. apply deaf_map_buttons.
Qed.

Lemma deaf_script_entry set_iter :
  deaf_to_read_sigint (script_entry Standalone set_iter).
Proof.
  assert (Hmain : deaf_to_read_sigint (main Standalone set_iter)).
  { apply deaf_bind; [apply deaf_map_controller|]. intros m.
    apply deaf_write_config. }
  intros w. unfold script_entry. rewrite Hmain.
  by destruct (main Standalone set_iter w) as [a w'|[] w'|].
Qed.

(** X11.  In the stand-alone script a Ctrl+C that arrives during
    [dev.read] has the effect of a read timeout, wherever it arrives:
    two oracles that differ only in having the one where the other
    has the other give the same result in baseline sampling, in
    [wait_button], in [map_controller] and in the whole run. *)
Theorem standalone_deaf_to_read_interrupt set_iter w1 w2 :
  sigint_as_timeout w1 = sigint_as_timeout w2 →
  result_sigint_as_timeout (get_baseline Standalone set_iter w1) =
    result_sigint_as_timeout (get_baseline Standalone set_iter w2) ∧
  (∀ baseline timeout,
     result_sigint_as_timeout (wait_for_button Standalone baseline timeout w1) =
       result_sigint_as_timeout (wait_for_button Standalone baseline timeout w2)) ∧
  result_sigint_as_timeout (map_controller Standalone set_iter w1) =
    result_sigint_as_timeout (map_controller Standalone set_iter w2) ∧
  result_sigint_as_timeout (script_entry Standalone set_iter w1) =
    result_sigint_as_timeout (script_entry Standalone set_iter w2).
Proof.
  intros Hw. split_and!.
  - by rewrite <- !deaf_get_baseline, Hw.
  - intros baseline timeout. by rewrite <- !deaf_wait_for_button, Hw.
  - by rewrite <- !deaf_map_controller, Hw.
  - by rewrite <- !deaf_script_entry, Hw.
Qed.

(** ** Finding and choosing the controller *)

Lemma scan_interfaces_Found s dev intfs c :
  scan_interfaces s dev intfs = Found c →
  c = Controller dev (idVendor dev) (idProduct dev) (product_name s dev) ∧
  ∃ intf, intf ∈ walk_items intfs ∧ gamepad_interface intf.
Proof.
  induction intfs as [| |intf rest IH]; simpl; [done..|].
  destruct (decide (bInterfaceClass intf = 3)) as [Hc|Hc].
  - destruct (decide _) as [Hk|Hk].
    + intros [-> (i & Hi & Hg)]%IH. split; [done|]. exists i. split; [by right|done].
    + intros [= <-]. split; [done|]. exists intf. split; [by left|done].
  - intros [-> (i & Hi & Hg)]%IH. split; [done|]. exists i. split; [by right|done].
Qed.

Lemma scan_interfaces_finds s dev intfs :
  walk_ends intfs →
  (∃ intf, intf ∈ walk_items intfs ∧ gamepad_interface intf) →
  scan_interfaces s dev intfs =
  Found (Controller dev (idVendor dev) (idProduct dev) (product_name s dev)).
Proof.
  induction intfs as [| |intf rest IH]; simpl; intros Hend (i & Hi & Hg);
    [by apply elem_of_nil in Hi|done|].
  assert (Hrest : gamepad_interface intf ∨
                  ∃ i, i ∈ walk_items rest ∧ gamepad_interface i).
  { apply elem_of_cons in Hi as [->|Hi]; [by left|right; by exists i]. }
  destruct (decide (bInterfaceClass intf = 3)) as [Hc|Hc].
  - destruct (decide _) as [Hk|Hk]; [|done].
    destruct Hrest as [[_ Hn]|Hrest]; [done|by apply IH].
  - destruct Hrest as [[Hcl _]|Hrest]; [done|by apply IH].
Qed.

Lemma scan_interfaces_none s dev intfs :
  scan_interfaces s dev intfs = NotFound →
  walk_ends intfs ∧ ∀ intf, intf ∈ walk_items intfs → ¬ gamepad_interface intf.
Proof.
  induction intfs as [| |intf rest IH]; simpl; [|done|].
  { intros _. split; [done|]. by intros ? ?%elem_of_nil. }
  destruct (decide (bInterfaceClass intf = 3)) as [Hc|Hc].
  - destruct (decide _) as [Hk|Hk]; [|done].
    intros [He Hn]%IH. split; [done|].
    intros i [->|Hi]%elem_of_cons; [by intros [_ ?]|by apply Hn].
  - intros [He Hn]%IH. split; [done|].
    intros i [->|Hi]%elem_of_cons; [by intros [? _]|by apply Hn].
Qed.

Lemma scan_configurations_elem s dev cfgs c :
  c ∈ scan_configurations s dev cfgs →
  c = Controller dev (idVendor dev) (idProduct dev) (product_name s dev) ∧
  ∃ cfg, cfg ∈ walk_items cfgs ∧ gamepad_configuration cfg.
Proof.
  induction cfgs as [| |cfg rest IH]; simpl;
    [by intros ?%elem_of_nil..|].
  destruct (scan_interfaces s dev cfg) as [c'| |] eqn:Hs.
  - intros [->|Hin]%elem_of_cons.
    + apply scan_interfaces_Found in Hs as [-> Hg]. split; [done|].
      exists cfg. split; [by left|by apply Exists_exists].
    + destruct (IH Hin) as [-> (cfg' & Hc & Hg)]. split; [done|].
      exists cfg'. split; [by right|done].
  - intros [-> (cfg' & Hc & Hg)]%IH. split; [done|].
    exists cfg'. split; [by right|done].
  - by intros ?%elem_of_nil.
Qed.

Lemma scan_configurations_count s dev cfgs :
  walk_ends cfgs →
  Forall walk_ends (walk_items cfgs) →
  scan_configurations s dev cfgs =
  replicate (length (filter gamepad_configuration (walk_items cfgs)))
    (Controller dev (idVendor dev) (idProduct dev) (product_name s dev)).
Proof.
  induction cfgs as [| |cfg rest IH]; simpl; [done..|].
  intros Hend [Hcfg Hrest]%Forall_cons.
  rewrite filter_cons. destruct (decide (gamepad_configuration cfg)) as [Hg|Hg].
  - rewrite scan_interfaces_finds; [|done|by apply Exists_exists].
    simpl. f_equal. by apply IH.
  - destruct (scan_interfaces s dev cfg) as [c| |] eqn:Hs.
    + apply scan_interfaces_Found in Hs as [_ Hs]. by apply Exists_exists in Hs.
    + by apply IH.
    + clear IH Hg. induction cfg as [| |intf cfg IH']; simpl in *; [done..|].
      destruct (decide _); [destruct (decide _)|]; by auto.
Qed.

(** X12.  A device whose descriptors can be walked is listed exactly
    when it is in [KNOWN_CONTROLLERS] or one of its configurations has
    an HID interface that is not a boot keyboard or mouse. *)
Theorem device_listed_iff s devices dev :
  dev ∈ devices →
  walk_ends (configurations dev) →
  Forall walk_ends (walk_items (configurations dev)) →
  (∃ c, c ∈ find_game_controllers s devices ∧ ctl_device c = dev) ↔
  is_Some (known_name (idVendor dev, idProduct dev)) ∨
  ∃ cfg intf, cfg ∈ walk_items (configurations dev) ∧
              intf ∈ walk_items cfg ∧ gamepad_interface intf.
Proof.
  intros Hdev Hend Hends. unfold find_game_controllers. split.
  - intros (c & (d & Hc & Hd)%list_elem_of_bind & <-).
    unfold device_entries in Hc.
    destruct (known_name (idVendor d, idProduct d)) as [name|] eqn:Hk.
    + apply list_elem_of_singleton in Hc as ->. simpl. rewrite Hk. by left.
    + apply scan_configurations_elem in Hc as [-> (cfg & Hcfg & Hg)]. simpl.
      right. apply Exists_exists in Hg as (intf & Hi & Hg). by exists cfg, intf.
  - intros Hyes.
    assert (Hent : ∃ c, c ∈ device_entries s dev ∧ ctl_device c = dev).
    { unfold device_entries.
      destruct (known_name (idVendor dev, idProduct dev)) as [name|] eqn:Hk.
      { eexists. split; [by left|done]. }
      destruct Hyes as [[? [=]]|(cfg & intf & Hcfg & Hi & Hg)].
      rewrite scan_configurations_count by done.
      assert (Hin : cfg ∈ filter gamepad_configuration
                            (walk_items (configurations dev))).
      { apply list_elem_of_filter. split; [|done].
        apply Exists_exists. by exists intf. }
      destruct (filter _ _) as [|c0 l]; [by apply elem_of_nil in Hin|].
      simpl. eexists. split; [by left|done]. }
    destruct Hent as (c & Hc & Hd). exists c. split; [|done].
    apply list_elem_of_bind. by exists dev.
Qed.

(** X13.  A device that is not in [KNOWN_CONTROLLERS] is listed once
    for each of its configurations that has such an interface: the
    [break] leaves the loop over the interfaces only. *)
Theorem unknown_device_listed_per_configuration s dev :
  known_name (idVendor dev, idProduct dev) = None →
  walk_ends (configurations dev) →
  Forall walk_ends (walk_items (configurations dev)) →
  device_entries s dev =
  replicate
    (length (filter gamepad_configuration (walk_items (configurations dev))))
    (Controller dev (idVendor dev) (idProduct dev) (product_name s dev)).
Proof.
  intros Hk Hend Hends. unfold device_entries. rewrite Hk.
  by apply scan_configurations_count.
Qed.

Lemma dict_get_elem {V : Type} key (d : list ((Z * Z) * V)) v :
  dict_get key d = Some v → (key, v) ∈ d.
Proof.
  induction d as [|[k v'] d IH]; simpl; [done|].
  destruct (decide (k = key)) as [->|]; [intros [= ->]; by left|].
  intros ?%IH. by right.
Qed.

Lemma product_name_nonempty s dev : product_name s dev ≠ "".
Proof.
  unfold product_name. destruct (product dev) as [name| |].
  - destruct (decide (name = "")); [by destruct s|done].
  - by destruct s.
  - by destruct s.
Qed.

(** X14.  Every listed controller carries one of the devices, that
    device's ids and a name that is not empty, and the controllers
    come in the order of the devices. *)
Theorem listed_controllers_wellformed s devices :
  Forall (λ c, ctl_device c ∈ devices ∧
               ctl_vendor_id c = idVendor (ctl_device c) ∧
               ctl_product_id c = idProduct (ctl_device c) ∧
               ctl_name c ≠ "")
    (find_game_controllers s devices) ∧
  ∃ times : device → nat,
    ctl_device <$> find_game_controllers s devices =
    devices ≫= λ dev, replicate (times dev) dev.
Proof.
  assert (Hent : ∀ dev c, c ∈ device_entries s dev →
            ctl_device c = dev ∧ ctl_vendor_id c = idVendor dev ∧
            ctl_product_id c = idProduct dev ∧ ctl_name c ≠ "").
  { intros dev c. unfold device_entries.
    destruct (known_name (idVendor dev, idProduct dev)) as [name|] eqn:Hk.
    - intros ->%list_elem_of_singleton. simpl. split_and!; [done..|].
      apply dict_get_elem in Hk. intros ->.
      unfold KNOWN_CONTROLLERS in Hk.
      repeat (apply elem_of_cons in Hk as [[=]|Hk]). by apply elem_of_nil in Hk.
    - intros [-> _]%scan_configurations_elem. simpl. split_and!; [done..|].
      apply product_name_nonempty. }
  split.
  - apply Forall_forall. intros c (dev & Hc & Hd)%list_elem_of_bind.
    destruct (Hent dev c Hc) as (-> & Hv & Hp & Hn). by rewrite Hv, Hp.
  - exists (λ dev, length (device_entries s dev)).
    unfold find_game_controllers.
    induction devices as [|dev devices IH]; [done|].
    rewrite !bind_cons, fmap_app, IH. f_equal.
    assert (Hall : ∀ c, c ∈ device_entries s dev → ctl_device c = dev).
    { intros c Hc. by destruct (Hent dev c Hc). }
    induction (device_entries s dev) as [|c l IHl]; [done|].
    simpl. f_equal; [apply Hall; by left|]. apply IHl.
    intros c' Hc'. apply Hall. by right.
Qed.

Lemma selection_loop_picks s controllers bad n rest c :
  Forall (rejected s (length controllers)) bad →
  1 ≤ n ≤ Z.of_nat (length controllers) →
  controllers !! Z.to_nat (n - 1) = Some c →
  selection_loop s controllers (bad ++ InputInt n :: rest) = Selected c.
Proof.
  intros Hbad Hn Hc. induction Hbad as [|i bad Hi _ IH]; simpl.
  - rewrite decide_True by lia. by rewrite Hc.
  - destruct i as [k| | |]; simpl in Hi.
    + rewrite decide_False by lia. exact IH.
    + exact IH.
    + destruct s; [done|exact IH].
    + destruct s; [done|exact IH].
Qed.

(** X15.  At the prompt the answers that are not a number in range
    are passed over and the first number [n] in range selects the
    [n]-th controller. *)
Theorem select_controller_picks s controllers bad n rest :
  Forall (rejected s (length controllers)) bad →
  1 ≤ n ≤ Z.of_nat (length controllers) →
  ∃ c, controllers !! Z.to_nat (n - 1) = Some c ∧
       select_controller s controllers (bad ++ InputInt n :: rest) = Selected c.
Proof.
  intros Hbad Hn.
  destruct (lookup_lt_is_Some_2 controllers (Z.to_nat (n - 1))) as [c Hc];
    [lia|].
  exists c. split; [done|].
  pose proof (selection_loop_picks s controllers bad n rest c Hbad Hn Hc) as Hl.
  unfold select_controller. destruct s; [done|].
  destruct controllers as [|c0 [|c1 l]]; [done| |done].
  simpl in Hn. replace n with 1 in Hc by lia. simpl in Hc. congruence.
Qed.

Lemma selection_loop_inv s controllers inputs :
  match selection_loop s controllers inputs with
  | Selected c =>
      ∃ bad n rest,
        inputs = bad ++ InputInt n :: rest ∧
        Forall (rejected s (length controllers)) bad ∧
        1 ≤ n ≤ Z.of_nat (length controllers) ∧
        controllers !! Z.to_nat (n - 1) = Some c
  | SelectIndexError => False
  | SelectEOFError | SelectKeyboardInterrupt => s = Mapper
  | SelectWaiting => Forall (rejected s (length controllers)) inputs
  end.
Proof.
  induction inputs as [|i inputs IH]; simpl; [done|].
  assert (Hcons : ∀ i, rejected s (length controllers) i →
    match selection_loop s controllers inputs with
    | Selected c =>
        ∃ bad n rest,
          i :: inputs = bad ++ InputInt n :: rest ∧
          Forall (rejected s (length controllers)) bad ∧
          1 ≤ n ≤ Z.of_nat (length controllers) ∧
          controllers !! Z.to_nat (n - 1) = Some c
    | SelectIndexError => False
    | SelectEOFError | SelectKeyboardInterrupt => s = Mapper
    | SelectWaiting => Forall (rejected s (length controllers)) (i :: inputs)
    end).
  { intros i' Hi. destruct (selection_loop s controllers inputs); try done.
    - destruct IH as (bad & n & rest & -> & Hbad & Hn & Hc).
      exists (i' :: bad), n, rest. split; [done|]. split; [by constructor|done].
    - by constructor. }
  destruct i as [n| | |].
  - destruct (decide (0 ≤ n - 1 < Z.of_nat (length controllers))) as [Hn|Hn].
    + destruct (lookup_lt_is_Some_2 controllers (Z.to_nat (n - 1)))
        as [c Hc]; [lia|].
      rewrite Hc. exists [], n, inputs. split; [done|]. split; [done|]. split; [lia|done].
    + apply Hcons. simpl. lia.
  - by apply Hcons.
  - destruct s; [done|]. by apply Hcons.
  - destruct s; [done|]. by apply Hcons.
Qed.

Lemma select_controller_inv s controllers inputs :
  match select_controller s controllers inputs with
  | Selected c =>
      c ∈ controllers ∧
      ((s = Standalone ∧ controllers = [c]) ∨
       ∃ bad n rest,
         inputs = bad ++ InputInt n :: rest ∧
         Forall (rejected s (length controllers)) bad ∧
         1 ≤ n ≤ Z.of_nat (length controllers) ∧
         controllers !! Z.to_nat (n - 1) = Some c)
  | SelectIndexError => False
  | SelectEOFError | SelectKeyboardInterrupt => s = Mapper
  | SelectWaiting => Forall (rejected s (length controllers)) inputs
  end.
Proof.
  pose proof (selection_loop_inv s controllers inputs) as Hl.
  assert (Hgen :
    match selection_loop s controllers inputs with
    | Selected c =>
        c ∈ controllers ∧
        ((s = Standalone ∧ controllers = [c]) ∨
         ∃ bad n rest,
           inputs = bad ++ InputInt n :: rest ∧
           Forall (rejected s (length controllers)) bad ∧
           1 ≤ n ≤ Z.of_nat (length controllers) ∧
           controllers !! Z.to_nat (n - 1) = Some c)
    | SelectIndexError => False
    | SelectEOFError | SelectKeyboardInterrupt => s = Mapper
    | SelectWaiting => Forall (rejected s (length controllers)) inputs
    end).
  { destruct (selection_loop s controllers inputs); try done.
    destruct Hl as (bad & n & rest & Hin & Hbad & Hn & Hc).
    split; [by eapply list_elem_of_lookup_2|].
    right. by exists bad, n, rest. }
  unfold select_controller. destruct s; [done|].
  destruct controllers as [|c0 [|c1 l]]; [done| |done].
  split; [by left|]. left. done.
Qed.

(** X16.  What the selection can come to: a controller of the list,
    the [n]-th for the first answer [n] in range (or the only one, in
    the stand-alone script, without asking); never an index error;
    [EOFError] or [KeyboardInterrupt] in [snes-mapper.py] only, the
    stand-alone script asking again; and it is still asking only when
    every answer so far was rejected. *)
Theorem select_controller_sound s controllers inputs :
  match select_controller s controllers inputs with
  | Selected c =>
      c ∈ controllers ∧
      ((s = Standalone ∧ controllers = [c]) ∨
       ∃ bad n rest,
         inputs = bad ++ InputInt n :: rest ∧
         Forall (rejected s (length controllers)) bad ∧
         1 ≤ n ≤ Z.of_nat (length controllers) ∧
         controllers !! Z.to_nat (n - 1) = Some c)
  | SelectIndexError => False
  | SelectEOFError | SelectKeyboardInterrupt => s = Mapper
  | SelectWaiting => Forall (rejected s (length controllers)) inputs
  end.
Proof. apply select_controller_inv. Qed.

(** ** File names and hexadecimal strings *)

Lemma all_hex_of_pos n p rest :
  (Pos.size_nat p ≤ n)%nat → all_hex rest →
  all_hex (HexString.Raw.of_pos p rest).
Proof.
  revert p rest. induction n as [|n IH]; intros p rest Hn Hrest.
  { destruct p; simpl in Hn; lia. }
  do 4 try destruct p as [p|p|]; simpl in *;
    first [ apply IH; [lia|]; split; [by eexists|done]
          | split; [by eexists|done] ].
Qed.

Lemma all_hex_app a b : all_hex a → all_hex b → all_hex (a +:+ b).
Proof. induction a as [|ch a IH]; simpl; [done|]. intros [? ?] ?. auto. Qed.

Lemma all_hex_zeros k : all_hex (zeros k).
Proof. induction k; simpl; [done|]. split; [by eexists|done]. Qed.

Lemma all_hex_format_x n : all_hex (format_x n).
Proof.
  destruct n as [|p]; simpl; [split; [by eexists|done]|].
  by apply (all_hex_of_pos (Pos.size_nat p)).
Qed.

Lemma to_N_zeros k s : HexString.Raw.to_N (zeros k +:+ s) 0 = HexString.Raw.to_N s 0.
Proof. induction k; simpl; [done|]. exact IHk. Qed.

Lemma to_N_format_x n : HexString.Raw.to_N (format_x n) 0 = n.
Proof. destruct n as [|p]; [done|]. apply HexString.Raw.to_N_of_pos. Qed.

Lemma format_04x_nonneg n :
  0 ≤ n →
  all_hex (format_04x n) ∧ HexString.Raw.to_N (format_04x n) 0 = Z.to_N n.
Proof.
  intros Hn. destruct n as [|p|p]; [| |lia].
  - split; [|done]. simpl. repeat (split; [by eexists|]). done.
  - unfold format_04x. split.
    + apply all_hex_app; [apply all_hex_zeros|apply all_hex_format_x].
    + by rewrite to_N_zeros, to_N_format_x.
Qed.

(** A string is cut in one way only at the first occurrence of a
    character that is not a hexadecimal digit. *)
Lemma hex_prefix_unique (sep : ascii) a a' c c' :
  HexString.ascii_to_digit sep = None →
  all_hex a → all_hex a' →
  a +:+ String sep c = a' +:+ String sep c' →
  a = a' ∧ c = c'.
Proof.
  intros Hsep. revert a'. induction a as [|ch a IH]; intros [|ch' a'] Ha Ha';
    simpl in *.
  - by intros [= ->].
  - intros [= -> _]. destruct Ha' as [[d Hd] _]. congruence.
  - intros [= -> _]. destruct Ha as [[d Hd] _]. congruence.
  - intros [= -> Hrest]. destruct Ha as [_ Ha], Ha' as [_ Ha'].
    destruct (IH a' Ha Ha' Hrest) as [-> ->]. done.
Qed.

(** X18.  Controllers with different ids get different file names. *)
Theorem config_filename_injective vid pid vid' pid' :
  0 ≤ vid → 0 ≤ pid → 0 ≤ vid' → 0 ≤ pid' →
  config_filename vid pid = config_filename vid' pid' →
  vid = vid' ∧ pid = pid'.
Proof.
  intros Hv Hp Hv' Hp'. unfold config_filename.
  destruct (format_04x_nonneg vid Hv) as [Hhv Hnv].
  destruct (format_04x_nonneg pid Hp) as [Hhp Hnp].
  destruct (format_04x_nonneg vid' Hv') as [Hhv' Hnv'].
  destruct (format_04x_nonneg pid' Hp') as [Hhp' Hnp'].
  simpl. intros [= Heq].
  apply (hex_prefix_unique "_") in Heq as [Hvid Hrest]; [|done..].
  apply (hex_prefix_unique ".") in Hrest as [Hpid _]; [|done..].
  rewrite Hvid in Hnv. rewrite Hpid in Hnp. split; lia.
Qed.

Lemma hex_byte_length b : String.length (hex_byte b) = 2%nat.
Proof. by destruct b. Qed.

Lemma hex_byte_inj b b' : hex_byte b = hex_byte b' → b = b'.
Proof.
  intros Heq. apply (f_equal (λ s, HexString.Raw.to_N s 0%N)) in Heq.
  unfold hex_byte in Heq. rewrite !to_N_zeros, !to_N_format_x in Heq.
  apply (f_equal Byte.of_N) in Heq. rewrite !Byte.of_to_N in Heq. congruence.
Qed.

Lemma string_app_length a b :
  String.length (a +:+ b) = (String.length a + String.length b)%nat.
Proof. induction a as [|ch a IH]; simpl; [done|]. by rewrite IH. Qed.

Lemma string_app_inj_length a a' c c' :
  String.length a = String.length a' →
  a +:+ c = a' +:+ c' → a = a' ∧ c = c'.
Proof.
  revert a'. induction a as [|ch a IH]; intros [|ch' a']; simpl; [done..|].
  intros [= Hlen] [= -> Hrest]. by destruct (IH a' Hlen Hrest) as [-> ->].
Qed.

(** X19.  The hexadecimal string stored for a report has two
    characters for each byte and determines the report. *)
Theorem report_hex_faithful :
  (∀ r : report, String.length (hex r) = (2 * length r)%nat) ∧
  (∀ r r' : report, hex r = hex r' → r = r').
Proof.
  split.
  - induction r as [|b r IH]; [done|].
    cbn [hex length]. rewrite string_app_length, hex_byte_length, IH. lia.
  - induction r as [|b r IH]; intros [|b' r']; cbn [hex].
    + done.
    + intros Heq. apply (f_equal String.length) in Heq.
      rewrite string_app_length, hex_byte_length in Heq. done.
    + intros Heq. apply (f_equal String.length) in Heq.
      rewrite string_app_length, hex_byte_length in Heq. done.
    + intros [Hb Hr]%string_app_inj_length;
        [|by rewrite !hex_byte_length].
      f_equal; [by apply hex_byte_inj|by apply IH].
Qed.

(** X17.  Whatever is answered at the prompt, the controller selected
    from those found carries one of the devices, and that device is
    in [KNOWN_CONTROLLERS] or has an HID interface that is not a boot
    keyboard or mouse. *)
Theorem selected_device_is_gamepad s devices inputs c :
  select_controller s (find_game_controllers s devices) inputs = Selected c →
  ctl_device c ∈ devices ∧
  (is_Some (known_name (idVendor (ctl_device c), idProduct (ctl_device c))) ∨
   ∃ cfg intf, cfg ∈ walk_items (configurations (ctl_device c)) ∧
               intf ∈ walk_items cfg ∧ gamepad_interface intf).
Proof.
  intros Hsel.
  pose proof (select_controller_inv s (find_game_controllers s devices) inputs)
    as Hs.
  rewrite Hsel in Hs. destruct Hs as [Hin _].
  unfold find_game_controllers in Hin.
  apply list_elem_of_bind in Hin as (dev & Hc & Hdev).
  unfold device_entries in Hc.
  destruct (known_name (idVendor dev, idProduct dev)) as [name|] eqn:Hk.
  - apply list_elem_of_singleton in Hc as ->. simpl. split; [done|].
    left. by rewrite Hk.
  - apply scan_configurations_elem in Hc as [-> (cfg & Hcfg & Hg)]. simpl.
    split; [done|]. right.
    apply Exists_exists in Hg as (intf & Hi & Hg). by exists cfg, intf.
Qed.

(** * The further properties at concrete inputs *)

(** X1 at a first button whose wait times out. *)
Lemma failed_button_left_absent_witness :
  map_buttons Mapper resting ([] ++ "dpad_up" :: ["dpad_down"])
    (Mapping resting 2 ∅) late_world =
  map_buttons Mapper resting ["dpad_down"] (Mapping resting 2 ∅)
    (World [] [] [] []) ∧
  m_buttons (Mapping resting 2 ∅) !! "dpad_up" = None ∧
  ∀ m' w', map_buttons Mapper resting ["dpad_down"] (Mapping resting 2 ∅)
             (World [] [] [] []) = Ret m' w' →
           m_buttons m' !! "dpad_up" = None.
Proof.
  apply (failed_button_left_absent Mapper resting [] "dpad_up" ["dpad_down"]
           (Mapping resting 2 ∅) late_world (Mapping resting 2 ∅) late_world
           (World [] [] [] [])).
  - apply NoDup_cons. split; [by intros [=]%list_elem_of_singleton|].
    apply NoDup_singleton.
  - reflexivity.
  - reflexivity.
  - left. reflexivity.
Defined.

(** X2 at a first button that is pressed and released. *)
Lemma captured_button_recorded_witness :
  map_buttons Mapper resting ([] ++ "dpad_up" :: ["dpad_down"])
    (Mapping resting 2 ∅) press_world =
  map_buttons Mapper resting ["dpad_down"]
    (set_button "dpad_up" (Capture held [Change 0 xff x7f (Some 128%N)])
       (Mapping resting 2 ∅))
    (World [] [] [] []) ∧
  ∀ m' w',
    map_buttons Mapper resting ["dpad_down"]
      (set_button "dpad_up" (Capture held [Change 0 xff x7f (Some 128%N)])
         (Mapping resting 2 ∅))
      (World [] [] [] []) = Ret m' w' →
    m_buttons m' !! "dpad_up" =
      Some (Capture held [Change 0 xff x7f (Some 128%N)]).
Proof.
  apply (captured_button_recorded Mapper resting [] "dpad_up" ["dpad_down"]
           (Mapping resting 2 ∅) press_world (Mapping resting 2 ∅) press_world
           (Capture held [Change 0 xff x7f (Some 128%N)])
           (World [] [] [] [])).
  - apply NoDup_cons. split; [by intros [=]%list_elem_of_singleton|].
    apply NoDup_singleton.
  - reflexivity.
  - reflexivity.
Defined.


(** X5 at one idle round, a press held for two reads, and a release. *)
Lemma wait_for_button_captures_witness :
  wait_for_button Mapper resting 30000
    (World (0 :: [5] ++ 10 :: [])
       ([UsbTimeout] ++ UsbData held :: [UsbData held] ++ UsbData resting :: [])
       (replicate (length [5] + length [UsbData held]) Slept ++ []) []) =
  Ret (Some (Capture held (detect_changes Mapper resting held)))
      (World [] [] [] []).
Proof.
  apply (wait_for_button_captures Mapper resting 30000 0 [5] 10 []
           [UsbTimeout] held [UsbData held] [] [] []).
  - repeat constructor.
  - reflexivity.
  - reflexivity.
  - repeat constructor.
  - intros _ Hin. repeat (apply elem_of_cons in Hin as [[=]|Hin]).
    by apply elem_of_nil in Hin.
  - reflexivity.
  - intros Hin. repeat (apply elem_of_cons in Hin as [[=]|Hin]).
    by apply elem_of_nil in Hin.
Defined.

(** X6 at twenty timeouts. *)
Lemma get_baseline_reads_twenty_witness :
  match get_baseline Standalone first_occurrences
          (World [] (replicate 20 UsbTimeout) (replicate 20 Slept) []) with
  | Ret baseline w' =>
      ∃ taken, replicate 20 UsbTimeout = taken ++ usb w' ∧
               length taken = 20%nat ∧
               baseline ∈ collect taken ∧
               (∀ r, count r (collect taken) ≤ count baseline (collect taken))%nat ∧
               clock w' = []
  | Raise e w' =>
      e = KeyboardInterrupt ∨
      (e = SystemExit 1 ∧
       ∃ taken, replicate 20 UsbTimeout = taken ++ usb w' ∧
                length taken = 20%nat ∧
                Forall (λ u, yields_data u = false) taken ∧
                clock w' = [])
  | Blocked => True
  end.
Proof.
  apply (get_baseline_reads_twenty Standalone first_occurrences []
           (replicate 20 UsbTimeout) (replicate 20 Slept) []).
  apply set_iteration_first_occurrences.
Defined.


(** X8 at the same session. *)
Lemma mapping_shape_witness :
  ∃ m w',
    map_controller Mapper first_occurrences one_press_session = Ret m w' ∧
    m_baseline m ≠ [] ∧
    m_report_size m = length (m_baseline m) ∧
    ∀ key_name c, m_buttons m !! key_name = Some c →
      key_name ∈ buttons_to_map Mapper ∧
      cap_report c ≠ [] ∧
      cap_report c ≠ m_baseline m ∧
      cap_changes c = detect_changes Mapper (m_baseline m) (cap_report c).
Proof.
  eexists _, _. split.
  - vm_compute. reflexivity.
  - eapply (mapping_shape Mapper first_occurrences one_press_session).
    + apply set_iteration_first_occurrences.
    + vm_compute. reflexivity.
Defined.

(** X9 at the change of the held report against the resting one. *)
Lemma change_fields_witness :
  resting !! ch_byte (Change 0 xff x7f (Some 128%N)) = Some xff ∧
  held !! ch_byte (Change 0 xff x7f (Some 128%N)) = Some x7f ∧
  xff ≠ x7f ∧
  ∃ d, Some 128%N = Some d ∧ d ≠ 0%N ∧
       N.lxor (Byte.to_N xff) d = Byte.to_N x7f.
Proof.
  apply (change_fields Mapper resting held (Change 0 xff x7f (Some 128%N))).
  vm_compute. left.
Defined.

(** X11 at a Ctrl+C during the first read of a wait. *)
Lemma standalone_deaf_to_read_interrupt_witness :
  result_sigint_as_timeout
    (wait_for_button Standalone resting 15000
       (World [0; 1; 2] [UsbSigInt; UsbData held; UsbData resting] [Slept] [])) =
  result_sigint_as_timeout
    (wait_for_button Standalone resting 15000
       (World [0; 1; 2] [UsbTimeout; UsbData held; UsbData resting] [Slept] [])).
Proof.
  apply (standalone_deaf_to_read_interrupt first_occurrences
           (World [0; 1; 2] [UsbSigInt; UsbData held; UsbData resting] [Slept] [])
           (World [0; 1; 2] [UsbTimeout; UsbData held; UsbData resting] [Slept] [])).
  reflexivity.
Defined.

(** X12 at the pad that is not in the table, beside the keyboard. *)
Lemma device_listed_iff_witness :
  (∃ c, c ∈ find_game_controllers Mapper [keyboard; unknown_pad] ∧
        ctl_device c = unknown_pad) ↔
  is_Some (known_name (idVendor unknown_pad, idProduct unknown_pad)) ∨
  ∃ cfg intf, cfg ∈ walk_items (configurations unknown_pad) ∧
              intf ∈ walk_items cfg ∧ gamepad_interface intf.
Proof.
  apply (device_listed_iff Mapper [keyboard; unknown_pad] unknown_pad).
  - right. left.
  - exact I.
  - repeat constructor.
Defined.

(** X13 at the same pad. *)
Lemma unknown_device_listed_per_configuration_witness :
  device_entries Standalone unknown_pad =
  replicate
    (length (filter gamepad_configuration
               (walk_items (configurations unknown_pad))))
    (Controller unknown_pad 0x1234 0x5678 "Unknown").
Proof.
  apply (unknown_device_listed_per_configuration Standalone unknown_pad).
  - reflexivity.
  - exact I.
  - repeat constructor.
Defined.

(** X15 at two controllers, after a word and a number out of range. *)
Lemma select_controller_picks_witness :
  ∃ c,
    find_game_controllers Mapper [unknown_pad; known_pad] !! Z.to_nat (2 - 1)
      = Some c ∧
    select_controller Mapper (find_game_controllers Mapper [unknown_pad; known_pad])
      ([InputNotInt; InputInt 5] ++ InputInt 2 :: []) = Selected c.
Proof.
  apply (select_controller_picks Mapper
           (find_game_controllers Mapper [unknown_pad; known_pad])
           [InputNotInt; InputInt 5] 2 []).
  - repeat constructor. vm_compute. intros [_ H]. by apply H.
  - vm_compute. split; intros [=].
Defined.

(** X17 at the same controllers and answers. *)
Lemma selected_device_is_gamepad_witness :
  known_pad ∈ [unknown_pad; known_pad] ∧
  (is_Some (known_name (idVendor known_pad, idProduct known_pad)) ∨
   ∃ cfg intf, cfg ∈ walk_items (configurations known_pad) ∧
               intf ∈ walk_items cfg ∧ gamepad_interface intf).
Proof.
  apply (selected_device_is_gamepad Mapper [unknown_pad; known_pad]
           [InputNotInt; InputInt 5; InputInt 2]
           (Controller known_pad 0x0810 0xe501 "Generic Chinese SNES")).
  reflexivity.
Defined.

(** X18 at a pair of ids of the table. *)
Lemma config_filename_injective_witness :
  config_filename 0x0810 0xe501 = "controller_0810_e501.json" ∧
  0x0810 = 0x0810 ∧ 0xe501 = 0xe501.
Proof.
  split; [reflexivity|].
  apply (config_filename_injective 0x0810 0xe501 0x0810 0xe501);
    [lia..|reflexivity].
Defined.
